(** * pt-test: protothreads, the event queue and the cooperative scheduler

    A shallow embedding of [framework/protothreads/pt.h] and
    [framework/pt_thread.h], and the properties of the event queue, of the
    thread wrapper and of the scheduler that are proved about it.

    Conventions.
    - [size_t] and [uint32_t] are 32 bits wide on the target (RP2040); they
      are integers in [Z] and every increment and decrement is written with
      its wrap-around ([wrap32]).
    - [std::array<T, N>] is a [list T] of length [N]; reading or writing it
      out of range is undefined in the source: here a read gives the default
      value and a write does nothing.
    - [PTThread *] is an address in [N], [0] being [nullptr]; the thread
      objects live in a heap [gmap N PTThread].
    - [save_and_disable_interrupts] / [restore_interrupts] have no effect on
      the sequential behaviour and do not appear. *)

From Stdlib Require Import ZArith Lia.
From stdpp Require Import base numbers option list gmap strings.

Local Open Scope Z_scope.

(** ** Machine integers *)

Definition wrap32 (z : Z) : Z := z mod 2 ^ 32.

(** ** Events and the event queue *)

Module EventQueue.

Inductive PTEventType :=
| NONE
| ENCODER_TURN
| BUTTON_PRESS
| BUTTON_RELEASE
| GATE_RISING
| GATE_FALLING
| TIMER_TICK
| ADC_READY
| SCREEN_REFRESH
| SEQUENCE_STEP
| CV_CHANGE
| USER_EVENT.

Record PTEvent := mkEvent {
  type : PTEventType;
  data : Z;        (* uint32_t *)
  timestamp : Z;   (* uint32_t *)
  processed : bool
}.

(** [PTEvent()] *)
Definition PTEvent_default : PTEvent :=
  {| type := NONE; data := 0; timestamp := 0; processed := false |}.

(** [PTEvent(t, d)]; [now] is what [time_us_32()] returns. *)
Definition PTEvent_make (now : Z) (t : PTEventType) (d : Z) : PTEvent :=
  {| type := t; data := d; timestamp := now; processed := false |}.

#[export] Instance PTEvent_inhabited : Inhabited PTEvent :=
  populate PTEvent_default.

Definition MAX_EVENTS : Z := 32.

Record PTEventQueue := mkQueue {
  events : list PTEvent;   (* std::array<PTEvent, MAX_EVENTS> *)
  head : Z;                (* size_t *)
  tail : Z;                (* size_t *)
  count : Z                (* size_t *)
}.

(** [PTEventQueue()]: the array is value-initialised, the indices are 0. *)
Definition PTEventQueue_new : PTEventQueue :=
  {| events := replicate (Z.to_nat MAX_EVENTS) PTEvent_default;
     head := 0; tail := 0; count := 0 |}.

Definition push (event : PTEvent) (q : PTEventQueue) : bool * PTEventQueue :=
  if MAX_EVENTS <=? count q then (false, q)
  else
    (true,
     {| events := <[Z.to_nat (head q) := event]> (events q);
        head := wrap32 (head q + 1) mod MAX_EVENTS;
        tail := tail q;
        count := wrap32 (count q + 1) |}).

(** [pop(PTEvent &event)]: the caller's variable is an argument and a
    result. *)
Definition pop (event : PTEvent) (q : PTEventQueue)
  : bool * PTEvent * PTEventQueue :=
  if count q =? 0 then (false, event, q)
  else
    (true,
     events q !!! Z.to_nat (tail q),
     {| events := events q;
        head := head q;
        tail := wrap32 (tail q + 1) mod MAX_EVENTS;
        count := wrap32 (count q - 1) |}).

Definition isEmpty (q : PTEventQueue) : bool := count q =? 0.

Definition size (q : PTEventQueue) : Z := count q.

Definition clear (q : PTEventQueue) : PTEventQueue :=
  {| events := events q; head := 0; tail := 0; count := 0 |}.

(** *** Abstract view of a queue *)

(** The [n] events stored from index [t] on, going round the array. *)
Fixpoint read_from (evs : list PTEvent) (t : Z) (n : nat) : list PTEvent :=
  match n with
  | O => []
  | S n' => evs !!! Z.to_nat t :: read_from evs ((t + 1) mod MAX_EVENTS) n'
  end.

(** The unread events, oldest first. *)
Definition contents (q : PTEventQueue) : list PTEvent :=
  read_from (events q) (tail q) (Z.to_nat (count q)).

(** The representation invariant of the circular buffer. *)
Definition wf (q : PTEventQueue) : Prop :=
  length (events q) = Z.to_nat MAX_EVENTS
  /\ 0 <= tail q < MAX_EVENTS
  /\ 0 <= count q <= MAX_EVENTS
  /\ head q = (tail q + count q) mod MAX_EVENTS.

(** *** Runs of queue operations *)

Inductive op :=
| Push (e : PTEvent)
| Pop.

(** What a client has observed of a run: the queue, the events whose push
    returned true, the events handed out by the pops that returned true
    (both oldest first) and the variable the pops write to. *)
Record run_state := mkRun {
  rq : PTEventQueue;
  accepted : list PTEvent;
  popped : list PTEvent;
  var : PTEvent
}.

Definition run_init : run_state :=
  {| rq := PTEventQueue_new; accepted := []; popped := [];
     var := PTEvent_default |}.

Definition step (st : run_state) (o : op) : run_state :=
  match o with
  | Push e =>
      let '(ok, q') := push e (rq st) in
      {| rq := q';
         accepted := if ok then accepted st ++ [e] else accepted st;
         popped := popped st;
         var := var st |}
  | Pop =>
      let '(ok, e, q') := pop (var st) (rq st) in
      {| rq := q';
         accepted := accepted st;
         popped := if ok then popped st ++ [e] else popped st;
         var := e |}
  end.

Definition run_ops (ops : list op) : run_state := foldl step run_init ops.

(** [n] consecutive pops; the events of those that returned true. *)
Fixpoint pops (n : nat) (event : PTEvent) (q : PTEventQueue)
  : list PTEvent * PTEventQueue :=
  match n with
  | O => ([], q)
  | S n' =>
      let '(ok, e, q') := pop event q in
      let '(es, q'') := pops n' e q' in
      (if ok then e :: es else es, q'')
  end.

End EventQueue.

(** ** The protothread macros of [pt.h] *)

Module Protothread.

(** [lc.h] has [typedef int lc_t;]: every [__LINE__] of a thread body fits
    in it and no arithmetic is done on it. *)
Definition lc_t := Z.

Record pt := mkPt { lc : lc_t }.

Definition PT_WAITING : Z := 0.
Definition PT_YIELDED : Z := 1.
Definition PT_EXITED : Z := 2.
Definition PT_ENDED : Z := 3.

(** [result == PT_ENDED || result == PT_EXITED] *)
Definition terminal (result : Z) : bool :=
  (result =? PT_ENDED) || (result =? PT_EXITED).

Definition PT_INIT (p : pt) : pt := {| lc := 0 |}.

Section Body.
Context {St : Type}.

(** The statements of a thread body between [PT_BEGIN] and [PT_END]:
    an ordinary statement acting on the storage the body can reach, or
    one of the macros, each with the [__LINE__] it expands at.  A
    condition may change the storage ([event_queue->pop(event_var)] in
    [PT_WAIT_EVENT]). *)
Inductive stmt :=
| C_stmt (f : St -> St)
| PT_WAIT_UNTIL (line : Z) (condition : St -> bool * St)
| PT_YIELD (line : Z)
| PT_EXIT.

(** [PT_END]: the closing brace of the switch, then
    [(pt)->lc = 0; return PT_ENDED;]. *)
Definition PT_END (s : St) (p : pt) : Z * St * pt :=
  (PT_ENDED, s, {| lc := 0 |}).

(** Control flowing into the statements [b] from above. *)
Fixpoint exec (b : list stmt) (s : St) (p : pt) : Z * St * pt :=
  match b with
  | [] => PT_END s p
  | C_stmt f :: k => exec k (f s) p
  | PT_WAIT_UNTIL line condition :: k =>
      let p' := {| lc := line |} in
      let '(c, s') := condition s in
      if c then exec k s' p' else (PT_WAITING, s', p')
  | PT_YIELD line :: k => (PT_YIELDED, s, {| lc := line |})
  | PT_EXIT :: k => (PT_EXITED, s, p)
  end.

(** [switch ((pt)->lc)] jumping to the label [case __LINE__:] inside a
    macro of [b]; [None] when no label of [b] is [lc p]. *)
Fixpoint resume (b : list stmt) (s : St) (p : pt) : option (Z * St * pt) :=
  match b with
  | [] => None
  | C_stmt _ :: k => resume k s p
  | PT_WAIT_UNTIL line condition :: k =>
      if lc p =? line then
        Some (let '(c, s') := condition s in
              if c then exec k s' p else (PT_WAITING, s', p))
      else resume k s p
  | PT_YIELD line :: k =>
      if lc p =? line then Some (PT_YIELDED, s, p) else resume k s p
  | PT_EXIT :: k => resume k s p
  end.

(** One invocation of the function [PT_BEGIN(pt); b; PT_END(pt);].
    [case 0:] is the top of the body; when no label matches, the switch
    is left at once and [PT_END] runs. *)
Definition protothread (b : list stmt) (s : St) (p : pt) : Z * St * pt :=
  if lc p =? 0 then exec b s p
  else match resume b s p with
       | Some r => r
       | None => PT_END s p
       end.

(** The [case] labels of a body. *)
Fixpoint labels (b : list stmt) : list Z :=
  match b with
  | [] => []
  | PT_WAIT_UNTIL line _ :: k => line :: labels k
  | PT_YIELD line :: k => line :: labels k
  | _ :: k => labels k
  end.

(** A body the compiler accepts: [case 0:] is [PT_BEGIN]'s and no two
    labels are equal. *)
Definition well_labelled (b : list stmt) : Prop :=
  NoDup (0 :: labels b).

(** [n] successive invocations with nothing else touching the storage;
    the statuses returned, first invocation first. *)
Fixpoint invocations (n : nat) (b : list stmt) (s : St) (p : pt)
  : list Z * St * pt :=
  match n with
  | O => ([], s, p)
  | S n' =>
      let '(r, s', p') := protothread b s p in
      let '(rs, s'', p'') := invocations n' b s' p' in
      (r :: rs, s'', p'')
  end.
End Body.

Arguments stmt : clear implicits.

End Protothread.

(** ** The thread wrapper [PTThread] *)

Module Thread.
Import EventQueue Protothread.

Section Thread.
(** The data members a derived class adds. *)
Context {U : Type}.

(** What [run()] can reach besides the continuation: the members of its
    own object and the event queue. *)
Definition Store : Type := U * PTEventQueue.

Record PTThread := mkThread {
  thread_pt : pt;
  active : bool;
  name : string;
  last_run_time : Z;   (* uint32_t *)
  run_count : Z;       (* uint32_t *)
  event_queue : N;     (* PTEventQueue * *)
  fields : U;
  run : Store -> pt -> Z * Store * pt   (* virtual int run() *)
}.

(** [PTThread(thread_name)] of a derived class with members [u] and
    override [body] of [run()]. *)
Definition PTThread_new (thread_name : string) (u : U)
    (body : Store -> pt -> Z * Store * pt) : PTThread :=
  {| thread_pt := PT_INIT {| lc := 0 |};
     active := true;
     name := thread_name;
     last_run_time := 0;
     run_count := 0;
     event_queue := 0%N;
     fields := u;
     run := body |}.

(** [execute()]; [now] is what [time_us_32()] returns and [q] the state
    of the event queue. *)
Definition execute (now : Z) (t : PTThread) (q : PTEventQueue)
  : Z * PTThread * PTEventQueue :=
  if negb (active t) then (PT_EXITED, t, q)
  else
    let '(result, (u', q'), p') := run t (fields t, q) (thread_pt t) in
    (result,
     {| thread_pt := p';
        active :=
          if (result =? PT_ENDED) || (result =? PT_EXITED) then false
          else active t;
        name := name t;
        last_run_time := now;
        run_count := wrap32 (run_count t + 1);
        event_queue := event_queue t;
        fields := u';
        run := run t |},
     q').

Definition init (t : PTThread) : PTThread :=
  {| thread_pt := PT_INIT (thread_pt t);
     active := true;
     name := name t;
     last_run_time := last_run_time t;
     run_count := 0;
     event_queue := event_queue t;
     fields := fields t;
     run := run t |}.

Definition stop (t : PTThread) : PTThread :=
  {| thread_pt := thread_pt t;
     active := false;
     name := name t;
     last_run_time := last_run_time t;
     run_count := run_count t;
     event_queue := event_queue t;
     fields := fields t;
     run := run t |}.

Definition isActive (t : PTThread) : bool := active t.
Definition getName (t : PTThread) : string := name t.
Definition getRunCount (t : PTThread) : Z := run_count t.
Definition getLastRunTime (t : PTThread) : Z := last_run_time t.
Definition getPT (t : PTThread) : pt := thread_pt t.

Definition setEventQueue (queue : N) (t : PTThread) : PTThread :=
  {| thread_pt := thread_pt t;
     active := active t;
     name := name t;
     last_run_time := last_run_time t;
     run_count := run_count t;
     event_queue := queue;
     fields := fields t;
     run := run t |}.

(** Code outside the thread writing the members of the derived class. *)
Definition set_fields (u : U) (t : PTThread) : PTThread :=
  {| thread_pt := thread_pt t;
     active := active t;
     name := name t;
     last_run_time := last_run_time t;
     run_count := run_count t;
     event_queue := event_queue t;
     fields := u;
     run := run t |}.
End Thread.

Arguments PTThread : clear implicits.

End Thread.


(** ** The scheduler [PTScheduler] *)

Module Scheduler.
Import EventQueue Protothread Thread.

Definition MAX_THREADS : Z := 16.

Record PTScheduler := mkSched {
  threads : list N;   (* std::array<PTThread *, MAX_THREADS> *)
  thread_count : Z;   (* size_t *)
  global_event_queue : PTEventQueue;
  scheduler_ticks : Z;   (* uint32_t *)
  running : bool
}.

(** [PTScheduler()]. The constructor leaves the array of pointers
    uninitialised: [garbage] is whatever it holds. *)
Definition PTScheduler_new (garbage : list N) : PTScheduler :=
  {| threads := garbage;
     thread_count := 0;
     global_event_queue := PTEventQueue_new;
     scheduler_ticks := 0;
     running := false |}.

Definition set_threads (a : list N) (n : Z) (s : PTScheduler) : PTScheduler :=
  {| threads := a;
     thread_count := n;
     global_event_queue := global_event_queue s;
     scheduler_ticks := scheduler_ticks s;
     running := running s |}.

Definition set_queue (q : PTEventQueue) (s : PTScheduler) : PTScheduler :=
  {| threads := threads s;
     thread_count := thread_count s;
     global_event_queue := q;
     scheduler_ticks := scheduler_ticks s;
     running := running s |}.

Definition set_ticks (n : Z) (s : PTScheduler) : PTScheduler :=
  {| threads := threads s;
     thread_count := thread_count s;
     global_event_queue := global_event_queue s;
     scheduler_ticks := n;
     running := running s |}.

(** The inner loop of [removeThread],
    [for (j = i; j < thread_count - 1; j++) threads[j] = threads[j + 1];],
    by recursion on the number [n] of iterations left: neither [j]'s bound
    nor [j] is written by the loop body. *)
Fixpoint shift_left (n : nat) (j : Z) (a : list N) : list N :=
  match n with
  | O => a
  | S n' =>
      shift_left n' (j + 1) (<[Z.to_nat j := a !!! Z.to_nat (j + 1)]> a)
  end.

(** The outer loop of [removeThread] from index [i] on, by recursion on
    the number [n] of entries left to look at. *)
Fixpoint removeThread_from (n : nat) (i : Z) (thread : N) (s : PTScheduler)
  : bool * PTScheduler :=
  match n with
  | O => (false, s)
  | S n' =>
      if (threads s !!! Z.to_nat i =? thread)%N then
        (true,
         set_threads
           (shift_left (Z.to_nat (wrap32 (thread_count s - 1) - i)) i
              (threads s))
           (wrap32 (thread_count s - 1)) s)
      else removeThread_from n' (i + 1) thread s
  end.

Definition removeThread (thread : N) (s : PTScheduler) : bool * PTScheduler :=
  removeThread_from (Z.to_nat (thread_count s)) 0 thread s.

Definition stop (s : PTScheduler) : PTScheduler :=
  {| threads := threads s;
     thread_count := thread_count s;
     global_event_queue := global_event_queue s;
     scheduler_ticks := scheduler_ticks s;
     running := false |}.

Definition getThreadCount (s : PTScheduler) : Z := thread_count s.
Definition getSchedulerTicks (s : PTScheduler) : Z := scheduler_ticks s.

(** The registered threads, in dispatch order: [threads[0 .. thread_count)]. *)
Definition live (s : PTScheduler) : list N :=
  take (Z.to_nat (thread_count s)) (threads s).

(** *** Abstract view of the scheduler *)

(** The representation invariant: the array has its [MAX_THREADS] slots and
    [thread_count] is within them. *)
Definition sched_ok (s : PTScheduler) : Prop :=
  length (threads s) = Z.to_nat MAX_THREADS
  /\ 0 <= thread_count s <= MAX_THREADS.

(** [l] without the first entry equal to [p]. *)
Fixpoint remove_first (p : N) (l : list N) : list N :=
  match l with
  | [] => []
  | y :: l' => if (y =? p)%N then l' else y :: remove_first p l'
  end.

Section Machine.
Context {U : Type}.

(** The value the hardware timer returns the [k]-th time it is read. *)
Variable time_us_32 : nat -> Z.

(** The address of the member [global_event_queue]. *)
Variable queue_addr : N.

(** The scheduler, the thread objects it points to and the number of timer
    reads so far.  The members of a thread object are written by its own
    [run()] and by nothing else during a pass. *)
Record Machine := mkMachine {
  objs : gmap N (PTThread U);
  sched : PTScheduler;
  timer_reads : nat
}.

Definition set_sched (s : PTScheduler) (m : Machine) : Machine :=
  {| objs := objs m; sched := s; timer_reads := timer_reads m |}.

(** [*thread] when [thread] is not null and points to a thread object. *)
Definition deref (m : Machine) (thread : N) : option (PTThread U) :=
  if (thread =? 0)%N then None else objs m !! thread.

(** [addThread(thread)].  [thread->setEventQueue] on a pointer to no
    thread object is undefined in the source and does nothing here. *)
Definition addThread (thread : N) (m : Machine) : bool * Machine :=
  let s := sched m in
  if (MAX_THREADS <=? thread_count s) || (thread =? 0)%N then (false, m)
  else
    (true,
     {| objs := alter (setEventQueue queue_addr) thread (objs m);
        sched :=
          set_threads (<[Z.to_nat (thread_count s) := thread]> (threads s))
            (wrap32 (thread_count s + 1)) s;
        timer_reads := timer_reads m |}).

(** The loop of [runOnce] from index [i] on.  [log] lists the calls of
    [execute()] made so far with the status each returned.  An entry that
    points to no thread object (undefined in the source) is skipped like a
    null one.  The loop writes both [i] and [thread_count], so it is run on
    [fuel]; [None] means the fuel ran out before the loop condition
    failed. *)
Fixpoint runOnce_loop (fuel : nat) (i : Z) (m : Machine) (log : list (N * Z))
  : option (Machine * list (N * Z)) :=
  match fuel with
  | O => None
  | S fuel' =>
      if i <? thread_count (sched m) then
        let thread := threads (sched m) !!! Z.to_nat i in
        match deref m thread with
        | Some t =>
            if isActive t then
              let '(result, t', q') :=
                execute (time_us_32 (timer_reads m)) t
                  (global_event_queue (sched m)) in
              let m1 :=
                {| objs := <[thread := t']> (objs m);
                   sched := set_queue q' (sched m);
                   timer_reads := S (timer_reads m) |} in
              let log1 := log ++ [(thread, result)] in
              if (result =? PT_ENDED) || (result =? PT_EXITED) then
                let '(_, s2) := removeThread thread (sched m1) in
                runOnce_loop fuel' (wrap32 (wrap32 (i - 1) + 1))
                  (set_sched s2 m1) log1
              else runOnce_loop fuel' (wrap32 (i + 1)) m1 log1
            else runOnce_loop fuel' (wrap32 (i + 1)) m log
        | None => runOnce_loop fuel' (wrap32 (i + 1)) m log
        end
      else Some (m, log)
  end.

(** [runOnce()].  Every iteration of the loop either steps [i] or takes one
    entry off the list, so [thread_count] iterations are the most it makes. *)
Definition runOnce (m : Machine) : option (Machine * list (N * Z)) :=
  let m0 :=
    set_sched (set_ticks (wrap32 (scheduler_ticks (sched m) + 1)) (sched m)) m in
  runOnce_loop (S (Z.to_nat (thread_count (sched m)))) 0 m0 [].


(** [thread->stop()] called from outside the scheduler. *)
Definition stopThread (thread : N) (m : Machine) : Machine :=
  {| objs := alter Thread.stop thread (objs m);
     sched := sched m;
     timer_reads := timer_reads m |}.

(** *** One pass, on the list of registered threads *)

(** The state of a pass: the entries gone through and still registered, the
    thread objects, the queue, the number of timer reads and the calls of
    [execute()] made, with the status each returned. *)
Record pass_state := mkPass {
  visited : list N;
  heap : gmap N (PTThread U);
  queue : PTEventQueue;
  reads : nat;
  calls : list (N * Z)
}.

Definition skip_entry (p : N) (st : pass_state) : pass_state :=
  {| visited := visited st ++ [p];
     heap := heap st;
     queue := queue st;
     reads := reads st;
     calls := calls st |}.

(** The pass over the entries [todo] not gone through yet: an entry that is
    null, dangling or inactive is kept and not touched; an active one is
    executed, and taken off the list when the status is terminal. *)
Fixpoint pass (todo : list N) (st : pass_state) : pass_state :=
  match todo with
  | [] => st
  | p :: todo' =>
      match (if (p =? 0)%N then None else heap st !! p) with
      | Some t =>
          if active t then
            let '(result, t', q') :=
              execute (time_us_32 (reads st)) t (queue st) in
            pass todo'
              {| visited :=
                   if terminal result
                   then remove_first p (visited st ++ [p])
                   else visited st ++ [p];
                 heap := <[p := t']> (heap st);
                 queue := q';
                 reads := S (reads st);
                 calls := calls st ++ [(p, result)] |}
          else pass todo' (skip_entry p st)
      | None => pass todo' (skip_entry p st)
      end
  end.

Definition pass_init (m : Machine) : pass_state :=
  {| visited := [];
     heap := objs m;
     queue := global_event_queue (sched m);
     reads := timer_reads m;
     calls := [] |}.

(** *** Runs of scheduler operations *)

(** [n] consecutive passes; the calls of [execute()] of all of them. *)
Fixpoint runOnce_n (n : nat) (m : Machine) : option (Machine * list (N * Z)) :=
  match n with
  | O => Some (m, [])
  | S n' =>
      match runOnce m with
      | Some (m1, log1) =>
          match runOnce_n n' m1 with
          | Some (m2, log2) => Some (m2, log1 ++ log2)
          | None => None
          end
      | None => None
      end
  end.

(** [addThread] on each pointer of [ps] in turn; what each call returned. *)
Fixpoint addThreads (ps : list N) (m : Machine) : list bool * Machine :=
  match ps with
  | [] => ([], m)
  | p :: ps' =>
      let '(ok, m1) := addThread p m in
      let '(oks, m2) := addThreads ps' m1 in
      (ok :: oks, m2)
  end.

Inductive sched_op :=
| AddThread (thread : N)
| RemoveThread (thread : N)
| RunOnce.

Definition apply_op (m : Machine) (o : sched_op) : option Machine :=
  match o with
  | AddThread p => Some (addThread p m).2
  | RemoveThread p => Some (set_sched (removeThread p (sched m)).2 m)
  | RunOnce => fst <$> runOnce m
  end.

Fixpoint run_sched_ops (ops : list sched_op) (m : Machine) : option Machine :=
  match ops with
  | [] => Some m
  | o :: ops' =>
      match apply_op m o with
      | Some m' => run_sched_ops ops' m'
      | None => None
      end
  end.

(** No [addThread] of the run is given a pointer that is registered at the
    time of the call. *)
Fixpoint fresh_adds (ops : list sched_op) (m : Machine) : Prop :=
  match ops with
  | [] => True
  | o :: ops' =>
      match o with
      | AddThread p => p ∉ live (sched m)
      | _ => True
      end
      /\ match apply_op m o with
         | Some m' => fresh_adds ops' m'
         | None => True
         end
  end.

(** The thread object at [p] has its active flag cleared. *)
Definition inactive_at (h : gmap N (PTThread U)) (p : N) : Prop :=
  exists t, h !! p = Some t /\ active t = false.

(** The calls of a log that returned a terminal status. *)
Definition terminal_calls (log : list (N * Z)) : list (N * Z) :=
  filter (fun c => terminal c.2 = true) log.

(** A scheduler just constructed, with thread objects [h] around it. *)
Definition machine_new (h : gmap N (PTThread U)) (garbage : list N) : Machine :=
  {| objs := h; sched := PTScheduler_new garbage; timer_reads := 0 |}.

End Machine.

Arguments Machine : clear implicits.
Arguments pass_state : clear implicits.

End Scheduler.


(** ** Thread bodies written with the macros *)

Module Bodies.
Import EventQueue Protothread Thread.

(** A derived class with one member [flag] and the body
    [PT_BEGIN; PT_YIELD; flag = true; PT_END], the yield expanding at line
    10. *)
Definition yield_body : list (stmt bool) :=
  [PT_YIELD 10; C_stmt (fun _ => true)].

(** A derived class with the members [flag1], [flag2] and [x]. *)
Record Flags := mkFlags { flag1 : bool; flag2 : bool; x : bool }.

Definition set_flag1 (u : Flags) : Flags :=
  {| flag1 := true; flag2 := flag2 u; x := x u |}.

Definition set_flag2 (u : Flags) : Flags :=
  {| flag1 := flag1 u; flag2 := true; x := x u |}.

(** Its body [PT_BEGIN; flag1 = true; PT_WAIT_UNTIL(x); flag2 = true;
    PT_END], the wait expanding at line [line]. *)
Definition wait_body (line : Z) : list (stmt (Flags * PTEventQueue)) :=
  [ C_stmt (fun s => (set_flag1 s.1, s.2));
    PT_WAIT_UNTIL line (fun s => (x s.1, s));
    C_stmt (fun s => (set_flag2 s.1, s.2)) ].

Definition wait_thread (line : Z) (u : Flags) : PTThread Flags :=
  PTThread_new "wait" u (protothread (wait_body line)).

(** A derived class without members whose body is [PT_BEGIN; PT_END]. *)
Definition ending_thread : PTThread unit :=
  PTThread_new "ending" tt (protothread []).

End Bodies.

(** ** A small machine *)

Module Scenario.
Import EventQueue Protothread Thread Scheduler.

(** A body that waits for ever: [PT_BEGIN; PT_WAIT_UNTIL(false); PT_END]. *)
Definition waiting_thread : PTThread unit :=
  PTThread_new "waiting" tt (protothread [PT_WAIT_UNTIL 5 (fun s => (false, s))]).

(** A body that exits at once: [PT_BEGIN; PT_EXIT; PT_END]. *)
Definition exiting_thread : PTThread unit :=
  PTThread_new "exiting" tt (protothread [PT_EXIT]).

(** Three thread objects, the second of which exits when first executed. *)
Definition three_threads : gmap N (PTThread unit) :=
  {[ 1%N := waiting_thread; 2%N := exiting_thread; 3%N := waiting_thread ]}.

(** A timer that advances by one between two reads. *)
Definition clock (k : nat) : Z := Z.of_nat k.

(** The address of the scheduler's queue. *)
Definition the_queue : N := 100%N.

Definition empty_machine : Machine unit :=
  machine_new three_threads (replicate 16 0%N).

(** A thread written as the ones of [pt-test-simple.cpp]: [run()] is a
    state machine of its own that returns [PT_WAITING] every time. *)
Definition polling_thread : PTThread unit :=
  PTThread_new "polling" tt (fun s p => (PT_WAITING, s, p)).

(** Two such threads. *)
Definition polling_threads : gmap N (PTThread unit) :=
  {[ 1%N := polling_thread; 2%N := polling_thread ]}.

(** Two threads that exit when executed. *)
Definition exiting_threads : gmap N (PTThread unit) :=
  {[ 1%N := exiting_thread; 2%N := exiting_thread ]}.

End Scenario.


(** ** The queue as a bounded FIFO list *)

Module QueueSpec.
Import EventQueue.

(** The operations of [PTEventQueue] a client can call. *)
Inductive qop :=
| QPush (e : PTEvent)
| QPop
| QClear
| QSize
| QIsEmpty.

(** What a call hands back: the result and, for [pop], the event variable
    after the call. *)
Inductive qout :=
| OBool (b : bool)
| OPop (ok : bool) (event : PTEvent)
| OSize (n : Z)
| ODone.

(** One call on the queue; [var] is the variable given to [pop]. *)
Definition qstep (st : PTEventQueue * PTEvent) (o : qop)
  : qout * (PTEventQueue * PTEvent) :=
  let '(q, var) := st in
  match o with
  | QPush e => let '(ok, q') := push e q in (OBool ok, (q', var))
  | QPop => let '(ok, e, q') := pop var q in (OPop ok e, (q', e))
  | QClear => (ODone, (clear q, var))
  | QSize => (OSize (size q), (q, var))
  | QIsEmpty => (OBool (isEmpty q), (q, var))
  end.

(** The same call on a list of at most [MAX_EVENTS] events, oldest first. *)
Definition fifo_step (st : list PTEvent * PTEvent) (o : qop)
  : qout * (list PTEvent * PTEvent) :=
  let '(l, var) := st in
  match o with
  | QPush e =>
      if Z.of_nat (length l) <? MAX_EVENTS then (OBool true, (l ++ [e], var))
      else (OBool false, (l, var))
  | QPop =>
      match l with
      | [] => (OPop false var, (l, var))
      | e :: l' => (OPop true e, (l', e))
      end
  | QClear => (ODone, ([], var))
  | QSize => (OSize (Z.of_nat (length l)), (l, var))
  | QIsEmpty => (OBool (bool_decide (l = [])), (l, var))
  end.

(** A sequence of calls; what each handed back and the final state. *)
Fixpoint run_with {T : Type} (f : T -> qop -> qout * T) (ops : list qop) (st : T)
  : list qout * T :=
  match ops with
  | [] => ([], st)
  | o :: ops' =>
      let '(out, st1) := f st o in
      let '(outs, st2) := run_with f ops' st1 in
      (out :: outs, st2)
  end.

(** [push] of each event of [es] in turn; what each call returned. *)
Fixpoint push_all (es : list PTEvent) (q : PTEventQueue)
  : list bool * PTEventQueue :=
  match es with
  | [] => ([], q)
  | e :: es' =>
      let '(ok, q1) := push e q in
      let '(oks, q2) := push_all es' q1 in
      (ok :: oks, q2)
  end.

End QueueSpec.

(** ** Semaphores ([pt-sem.h]) *)

Module Semaphore.
Import Protothread.

Record pt_sem := mkSem { count : Z (* unsigned int *) }.

Section Sem.
(** The storage of the body and where the semaphore [s] of the macros
    lives in it. *)
Context {St : Type}.
Variable sem : St -> pt_sem.
Variable set_sem : pt_sem -> St -> St.

(** [PT_SEM_INIT(s, c)]: [(s)->count = c]. *)
Definition PT_SEM_INIT (c : Z) (s : St) : St :=
  set_sem {| count := wrap32 c |} s.

(** [PT_SEM_WAIT(pt, s)]: [PT_WAIT_UNTIL(pt, (s)->count > 0); --(s)->count;],
    the wait expanding at line [line]. *)
Definition PT_SEM_WAIT (line : Z) : list (stmt St) :=
  [ PT_WAIT_UNTIL line (fun s => (0 <? count (sem s), s));
    C_stmt (fun s => set_sem {| count := wrap32 (count (sem s) - 1) |} s) ].

(** [PT_SEM_SIGNAL(pt, s)]: [++(s)->count]. *)
Definition PT_SEM_SIGNAL : list (stmt St) :=
  [ C_stmt (fun s => set_sem {| count := wrap32 (count (sem s) + 1) |} s) ].

(** [sem] and [set_sem] read and write one place of the storage. *)
Definition sem_place : Prop :=
  (forall v s, sem (set_sem v s) = v)
  /\ (forall v w s, set_sem v (set_sem w s) = set_sem v s)
  /\ (forall s, set_sem (sem s) s = s).

(** [PT_SEM_WAIT] at each of the lines [lines], one after the other. *)
Definition sem_waits (lines : list Z) : list (stmt St) :=
  concat (PT_SEM_WAIT <$> lines).

End Sem.

End Semaphore.

(** ** Waiting for events ([PT_WAIT_EVENT], [PT_WAIT_EVENT_TYPE]) *)

Module EventWait.
Import EventQueue Protothread.

#[export] Instance PTEventType_eq_dec : EqDecision PTEventType.
Proof. solve_decision. Defined.

(** What the two macros reach through [pt_ptr] and [event_var]: the
    thread's pointer to the queue, the event variable and the queue the
    pointer points to when it is not null. *)
Record Waiter := mkWaiter {
  event_queue : N;          (* PTEventQueue * *)
  event_var : PTEvent;
  queue : PTEventQueue
}.

(** The condition of [PT_WAIT_EVENT]:
    [event_queue && event_queue->pop(event_var)]. *)
Definition wait_event_cond (s : Waiter) : bool * Waiter :=
  if (event_queue s =? 0)%N then (false, s)
  else
    let '(ok, e, q') := pop (event_var s) (queue s) in
    (ok, {| event_queue := event_queue s; event_var := e; queue := q' |}).

(** [PT_WAIT_EVENT(pt_ptr, event_var)], expanding at line [line]. *)
Definition PT_WAIT_EVENT (line : Z) : stmt Waiter :=
  PT_WAIT_UNTIL line wait_event_cond.

(** The loop [do { PT_WAIT_EVENT } while (event_var.type != event_type)]
    from the test of the wait on, which is where both the entry from above
    and the resumption at the label of the wait arrive.  Each round pops
    one event, so after [n] further rounds with [n] the number of unread
    events the queue is empty and the wait fails. *)
Fixpoint wait_event_type_loop (n : nat) (event_type : PTEventType) (s : Waiter)
  : bool * Waiter :=
  let '(ok, s') := wait_event_cond s in
  if ok then
    if decide (type (event_var s') = event_type) then (true, s')
    else
      match n with
      | O => (false, s')
      | S n' => wait_event_type_loop n' event_type s'
      end
  else (false, s').

(** [PT_WAIT_EVENT_TYPE(pt_ptr, event_var, event_type)], expanding at line
    [line]: the wait inside the loop sets the continuation and returns
    [PT_WAITING] when it fails, whichever round it is in. *)
Definition PT_WAIT_EVENT_TYPE (line : Z) (event_type : PTEventType)
  : stmt Waiter :=
  PT_WAIT_UNTIL line
    (fun s =>
       wait_event_type_loop (Z.to_nat (count (queue s))) event_type s).

End EventWait.

(** ** [PTScheduler::run] and [getEventQueue] *)

Module SchedulerRun.
Import EventQueue Protothread Thread Scheduler.

Definition set_running (b : bool) (s : PTScheduler) : PTScheduler :=
  {| threads := threads s;
     thread_count := thread_count s;
     global_event_queue := global_event_queue s;
     scheduler_ticks := scheduler_ticks s;
     running := b |}.

Definition getEventQueue (s : PTScheduler) : PTEventQueue :=
  global_event_queue s.

Section Run.
Context {U : Type}.
Variable time_us_32 : nat -> Z.

(** The loop [while (running && thread_count > 0) { runOnce();
    tight_loop_contents(); }]; [fuel] bounds the number of passes and
    [None] means it ran out.  [log] collects the calls of [execute()]. *)
Fixpoint run_loop (fuel : nat) (m : Machine U) (log : list (N * Z))
  : option (Machine U * list (N * Z)) :=
  match fuel with
  | O => None
  | S fuel' =>
      if running (sched m) && (0 <? thread_count (sched m)) then
        match runOnce time_us_32 m with
        | Some (m', l) => run_loop fuel' m' (log ++ l)
        | None => None
        end
      else Some (m, log)
  end.

(** [run()] *)
Definition run (fuel : nat) (m : Machine U)
  : option (Machine U * list (N * Z)) :=
  run_loop fuel (set_sched (set_running true (sched m)) m) [].

(** Every registered pointer points to a thread object that is active. *)
Definition all_active (m : Machine U) : Prop :=
  forall p, p ∈ live (sched m) ->
    p <> 0%N /\ exists t, objs m !! p = Some t /\ active t = true.

(** The body of every thread object returns a status for which
    [terminal] is [b], whatever it is run on. *)
Definition bodies_terminal (b : bool) (h : gmap N (PTThread U)) : Prop :=
  forall p t, h !! p = Some t ->
    forall s c, terminal (Thread.run t s c).1.1 = b.

End Run.

End SchedulerRun.

(** ** Timing and clamping ([eurorack_utils.h]) *)

Module EurorackUtils.

(** [Timing::delayElapsed(last_time, delay_ms)]; [current_time] is what
    [getMillis()] returns, [last_time] is an argument and a result. *)
Definition delayElapsed (current_time last_time delay_ms : Z) : bool * Z :=
  if delay_ms <=? wrap32 (current_time - last_time) then (true, current_time)
  else (false, last_time).

(** [Math::clamp<int>(value, min_val, max_val)] *)
Definition clamp (value min_val max_val : Z) : Z :=
  if value <? min_val then min_val
  else if max_val <? value then max_val
  else value.

End EurorackUtils.


(** * Properties *)

(** ** The event queue *)

Import EventQueue.

Ltac zmod :=
  unfold wrap32, MAX_EVENTS in *; change (2 ^ 32) with 4294967296 in *;
  Z.div_mod_to_equations; lia.

Lemma wf_new : wf PTEventQueue_new.
Proof.
  unfold wf, PTEventQueue_new, MAX_EVENTS; cbn [events head tail count].
  split; [reflexivity|]. split; [lia|]. split; [lia|reflexivity].
Qed.

Lemma read_from_length evs t n : length (read_from evs t n) = n.
Proof. revert t; induction n as [|n IH]; intros t; simpl; [done|]. by rewrite IH. Qed.

Lemma contents_length q : 0 <= count q -> Z.of_nat (length (contents q)) = count q.
Proof. intros H. unfold contents. rewrite read_from_length. lia. Qed.

(** Writing the slot just past the [n] stored events appends to them. *)
Lemma read_from_insert evs t n e :
  length evs = Z.to_nat MAX_EVENTS ->
  0 <= t < MAX_EVENTS ->
  (Z.of_nat n < MAX_EVENTS) ->
  read_from (<[Z.to_nat ((t + Z.of_nat n) mod MAX_EVENTS) := e]> evs) t (S n)
  = read_from evs t n ++ [e].
Proof.
  intros Hlen. revert t. induction n as [|n IH]; intros t Ht Hn.
  - simpl. rewrite Z.add_0_r, Z.mod_small by lia.
    rewrite list_lookup_total_insert_eq; [done|]. unfold MAX_EVENTS in *. lia.
  - change (read_from ?a t (S (S n))) with
      (a !!! Z.to_nat t :: read_from a ((t + 1) mod MAX_EVENTS) (S n)).
    change (read_from evs t (S n)) with
      (evs !!! Z.to_nat t :: read_from evs ((t + 1) mod MAX_EVENTS) n).
    rewrite list_lookup_total_insert_ne by zmod.
    simpl app. f_equal.
    replace ((t + Z.of_nat (S n)) mod MAX_EVENTS)
      with (((t + 1) mod MAX_EVENTS + Z.of_nat n) mod MAX_EVENTS) by zmod.
    apply IH; zmod.
Qed.

Lemma push_spec e q :
  wf q -> count q < MAX_EVENTS ->
  exists q', push e q = (true, q') /\ wf q'
             /\ contents q' = contents q ++ [e]
             /\ count q' = count q + 1 /\ tail q' = tail q.
Proof.
  intros (Hlen & Ht & Hc & Hh) Hlt. unfold push.
  destruct (MAX_EVENTS <=? count q) eqn:E; [apply Z.leb_le in E; lia|].
  eexists; split; [reflexivity|]. 
  assert (Hw : wrap32 (count q + 1) = count q + 1) by zmod.
  split; [|split; [|split]]; cbn [events head tail count].
  - unfold wf; cbn [events head tail count]. rewrite length_insert.
    repeat split; try done; try zmod.
  - unfold contents; cbn [events head tail count]. rewrite Hw, Hh.
    replace (Z.to_nat (count q + 1)) with (S (Z.to_nat (count q))) by lia.
    rewrite <- (Z2Nat.id (count q)) at 1 by lia.
    apply read_from_insert; [done|done|lia].
  - done.
  - done.
Qed.

Lemma pop_spec ev q :
  wf q -> 0 < count q ->
  exists e q', pop ev q = (true, e, q') /\ wf q'
               /\ contents q = e :: contents q'
               /\ count q' = count q - 1.
Proof.
  intros (Hlen & Ht & Hc & Hh) Hlt. unfold pop.
  destruct (count q =? 0) eqn:E; [apply Z.eqb_eq in E; lia|].
  do 2 eexists; split; [reflexivity|].
  assert (Hw : wrap32 (count q - 1) = count q - 1) by zmod.
  assert (Hw' : wrap32 (tail q + 1) mod MAX_EVENTS = (tail q + 1) mod MAX_EVENTS) by zmod.
  split; [|split]; cbn [events head tail count].
  - unfold wf; cbn [events head tail count]. repeat split; try done; try zmod.
  - unfold contents; cbn [events head tail count]. rewrite Hw, Hw'.
    replace (Z.to_nat (count q)) with (S (Z.to_nat (count q - 1))) by lia.
    reflexivity.
  - done.
Qed.

Lemma push_full e q : MAX_EVENTS <= count q -> push e q = (false, q).
Proof.
  intros H. unfold push.
  destruct (MAX_EVENTS <=? count q) eqn:E; [done|]. apply Z.leb_gt in E. lia.
Qed.

Lemma pop_empty ev q : count q = 0 -> pop ev q = (false, ev, q).
Proof. intros H. unfold pop. by rewrite H. Qed.

(** What a run has observed determines the queue: the events accepted and
    not yet handed out are exactly the unread ones, in order. *)
Lemma step_invariant st o :
  wf (rq st) -> accepted st = popped st ++ contents (rq st) ->
  wf (rq (step st o))
  /\ accepted (step st o) = popped (step st o) ++ contents (rq (step st o)).
Proof.
  intros Hwf Hacc. destruct o as [e|]; unfold step.
  - destruct (Z_lt_le_dec (count (rq st)) MAX_EVENTS) as [Hlt|Hge].
    + destruct (push_spec e _ Hwf Hlt) as (q' & -> & Hwf' & Hc & _).
      cbn [rq accepted popped]. split; [done|].
      by rewrite Hc, Hacc, app_assoc.
    + rewrite push_full by done. cbn [rq accepted popped]. done.
  - destruct (Z.eq_dec (count (rq st)) 0) as [H0|Hne].
    + rewrite pop_empty by done. cbn [rq accepted popped]. done.
    + assert (Hpos : 0 < count (rq st)) by (destruct Hwf as (_ & _ & ? & _); lia).
      destruct (pop_spec (var st) _ Hwf Hpos) as (e & q' & -> & Hwf' & Hc & _).
      cbn [rq accepted popped]. split; [done|].
      by rewrite Hacc, Hc, <- app_assoc.
Qed.

Lemma run_ops_invariant ops :
  wf (rq (run_ops ops))
  /\ accepted (run_ops ops) = popped (run_ops ops) ++ contents (rq (run_ops ops)).
Proof.
  unfold run_ops. induction ops as [|o ops IH] using rev_ind.
  - split; [apply wf_new|reflexivity].
  - rewrite foldl_app; cbn [foldl]. destruct IH as [IH1 IH2].
    by apply step_invariant.
Qed.

(** Popping [n] of the unread events hands them out oldest first. *)
Lemma pops_spec n : forall ev q,
  wf q -> Z.of_nat n <= count q ->
  exists q', pops n ev q = (take n (contents q), q') /\ wf q'
             /\ contents q' = drop n (contents q)
             /\ count q' = count q - Z.of_nat n.
Proof.
  induction n as [|n IH]; intros ev q Hwf Hn.
  - exists q. cbn [pops]. rewrite take_0, drop_0.
    split; [done|]. split; [done|]. split; [done|lia].
  - assert (Hpos : 0 < count q) by lia.
    destruct (pop_spec ev q Hwf Hpos) as (e & q1 & Hpop & Hwf1 & Hc & Hcount).
    destruct (IH e q1 Hwf1 ltac:(lia)) as (q2 & Hpops & Hwf2 & Hc2 & Hcount2).
    exists q2. cbn [pops]. rewrite Hpop, Hpops, Hc. cbn [take drop].
    split; [done|]. split; [done|]. split; [done|lia].
Qed.

(** C5. A push on a full queue ([count == MAX_EVENTS]) returns false and a
    pop on an empty queue ([count == 0]) returns false; each leaves the
    whole queue (buffer, head, tail and count) as it was, and the failed
    pop leaves the caller's event variable as it was. *)
Theorem push_full_pop_empty_unchanged :
  forall (q : PTEventQueue) (e : PTEvent),
    (count q = MAX_EVENTS -> push e q = (false, q))
    /\ (count q = 0 -> pop e q = (false, e, q)).
Proof.
  intros q e. split; intros H.
  - apply push_full. lia.
  - by apply pop_empty.
Qed.

Lemma push_full_pop_empty_unchanged_witness :
  let full := {| events := replicate 32 (PTEvent_make 7 USER_EVENT 1);
                 head := 5; tail := 5; count := 32 |} in
  let e := PTEvent_make 9 BUTTON_PRESS 2 in
  push e full = (false, full)
  /\ pop e PTEventQueue_new = (false, e, PTEventQueue_new).
Proof.
  intros full e. split.
  - apply (proj1 (push_full_pop_empty_unchanged full e)). reflexivity.
  - apply (proj2 (push_full_pop_empty_unchanged PTEventQueue_new e)). reflexivity.
Defined.

(** C8. After every sequence of pushes and pops on a queue that starts
    empty, and so after each of its steps (each prefix [take k ops]),
    [0 <= count <= MAX_EVENTS] and [count] is the number of pushes that
    returned true minus the number of pops that returned true. *)
Theorem count_bounded_and_exact :
  forall (ops : list op) (k : nat),
    let st := run_ops (take k ops) in
    0 <= count (rq st) <= MAX_EVENTS
    /\ count (rq st)
       = Z.of_nat (length (accepted st)) - Z.of_nat (length (popped st)).
Proof.
  intros ops k st. destruct (run_ops_invariant (take k ops)) as [Hwf Hacc].
  fold st in Hwf, Hacc. pose proof Hwf as (_ & _ & Hc & _).
  split; [done|]. rewrite Hacc, length_app, Nat2Z.inj_add, contents_length; lia.
Qed.

(** C6. FIFO order.  (1) On an empty queue, when the pushes of [A], [B],
    [C] all return true, the next three pops hand out [A], [B], [C] in that
    order.  (2) On a queue with events [contents q] still unread, the pops
    that follow three such pushes hand out the events unread before and
    then [A], [B], [C].  (3) In every run from the empty queue the events
    handed out by the pops are, in order, the first of the events whose
    push returned true, and the rest of these are the unread events of the
    queue. *)
Theorem fifo_order :
  (forall (q q1 q2 q3 : PTEventQueue) (A B C ev : PTEvent),
      wf q -> count q = 0 ->
      push A q = (true, q1) -> push B q1 = (true, q2) ->
      push C q2 = (true, q3) ->
      exists q4, pops 3 ev q3 = ([A; B; C], q4) /\ count q4 = 0)
  /\ (forall (q q1 q2 q3 : PTEventQueue) (A B C ev : PTEvent),
      wf q ->
      push A q = (true, q1) -> push B q1 = (true, q2) ->
      push C q2 = (true, q3) ->
      exists q4,
        pops (length (contents q) + 3) ev q3 = (contents q ++ [A; B; C], q4)
        /\ count q4 = 0)
  /\ (forall ops : list op,
         let st := run_ops ops in
         accepted st = popped st ++ contents (rq st)
         /\ popped st `prefix_of` accepted st).
Proof.
  assert (Hgen : forall (q q1 q2 q3 : PTEventQueue) (A B C ev : PTEvent),
      wf q ->
      push A q = (true, q1) -> push B q1 = (true, q2) ->
      push C q2 = (true, q3) ->
      exists q4,
        pops (length (contents q) + 3) ev q3 = (contents q ++ [A; B; C], q4)
        /\ count q4 = 0).
  { intros q q1 q2 q3 A B C ev Hwf HA HB HC.
    assert (Hstep : forall e x y, wf x -> push e x = (true, y) ->
              wf y /\ contents y = contents x ++ [e] /\ count y = count x + 1).
    { intros e x y Hx Hp.
      destruct (Z_lt_le_dec (count x) MAX_EVENTS) as [Hlt|Hge].
      - destruct (push_spec e x Hx Hlt) as (y' & Hp' & ? & ? & ? & _).
        rewrite Hp in Hp'. by inversion Hp'; subst.
      - rewrite push_full in Hp by done. discriminate. }
    destruct (Hstep _ _ _ Hwf HA) as (Hwf1 & Hc1 & Hn1).
    destruct (Hstep _ _ _ Hwf1 HB) as (Hwf2 & Hc2 & Hn2).
    destruct (Hstep _ _ _ Hwf2 HC) as (Hwf3 & Hc3 & Hn3).
    assert (Hq : 0 <= count q) by (destruct Hwf as (_ & _ & ? & _); lia).
    pose proof (contents_length q Hq) as Hlen.
    destruct (pops_spec (length (contents q) + 3) ev q3 Hwf3 ltac:(lia))
      as (q4 & Hpops & _ & _ & Hcount).
    exists q4. split; [|lia].
    rewrite Hpops, Hc3, Hc2, Hc1, <- !app_assoc. cbn [app].
    rewrite take_ge; [done|]. rewrite length_app. cbn [length]. lia. }
  split; [|split].
  - intros q q1 q2 q3 A B C ev Hwf H0 HA HB HC.
    destruct (Hgen q q1 q2 q3 A B C ev Hwf HA HB HC) as (q4 & Hpops & Hc).
    exists q4. unfold contents in Hpops. rewrite H0 in Hpops. by cbn in Hpops.
  - exact Hgen.
  - intros ops st. destruct (run_ops_invariant ops) as [_ Hacc]. fold st in Hacc.
    split; [done|]. rewrite Hacc. by apply prefix_app_r.
Qed.

Lemma fifo_order_witness :
  let A := PTEvent_make 1 BUTTON_PRESS 10 in
  let B := PTEvent_make 2 ENCODER_TURN 20 in
  let C := PTEvent_make 3 BUTTON_RELEASE 30 in
  let D := PTEvent_make 0 GATE_RISING 5 in
  let qD := (push D PTEventQueue_new).2 in
  (exists q4,
      pops 3 PTEvent_default
        (push C (push B (push A PTEventQueue_new).2).2).2
      = ([A; B; C], q4)
      /\ count q4 = 0)
  /\ (exists q4,
        pops (length (contents qD) + 3) PTEvent_default
          (push C (push B (push A qD).2).2).2
        = (contents qD ++ [A; B; C], q4)
        /\ count q4 = 0).
Proof.
  intros A B C D qD. split.
  - apply (proj1 fifo_order PTEventQueue_new
             (push A PTEventQueue_new).2
             (push B (push A PTEventQueue_new).2).2
             (push C (push B (push A PTEventQueue_new).2).2).2
             A B C PTEvent_default).
    + unfold wf, PTEventQueue_new, MAX_EVENTS; cbn [events head tail count].
      split; [reflexivity|]. split; [lia|]. split; [lia|reflexivity].
    + reflexivity.
    + reflexivity.
    + reflexivity.
    + reflexivity.
  - apply (proj1 (proj2 fifo_order) qD
             (push A qD).2
             (push B (push A qD).2).2
             (push C (push B (push A qD).2).2).2
             A B C PTEvent_default).
    + unfold wf, MAX_EVENTS.
      change (tail qD) with 0. change (count qD) with 1. change (head qD) with 1.
      split; [reflexivity|]. split; [lia|]. split; [lia|reflexivity].
    + reflexivity.
    + reflexivity.
    + reflexivity.
Defined.


(** ** Protothread bodies and the thread wrapper *)

Import Protothread Thread Bodies.

Section BodyFacts.
Context {St : Type}.
Implicit Types (b k : list (stmt St)) (s : St) (p : pt).

Lemma yield_label b line : PT_YIELD line ∈ b -> line ∈ labels b.
Proof.
  induction b as [|c b IH]; intros H; [by apply elem_of_nil in H|].
  apply elem_of_cons in H as [<-|H].
  - cbn. apply elem_of_cons. by left.
  - destruct c; cbn; rewrite ?elem_of_cons; auto.
Qed.

(** The switch entered with the label of a [PT_YIELD] lands on its
    [return PT_YIELDED]. *)
Lemma resume_at_yield b s p :
  NoDup (labels b) -> PT_YIELD (lc p) ∈ b ->
  resume b s p = Some (PT_YIELDED, s, p).
Proof.
  induction b as [|c b IH]; intros Hnd H; [by apply elem_of_nil in H|].
  apply elem_of_cons in H as [<-|H].
  - cbn. by rewrite Z.eqb_refl.
  - pose proof (yield_label _ _ H) as Hin.
    destruct c as [f|line c|line|]; cbn in *; auto.
    + apply NoDup_cons in Hnd as [Hnot Hnd].
      destruct (lc p =? line) eqn:E; [|auto].
      apply Z.eqb_eq in E. congruence.
    + apply NoDup_cons in Hnd as [Hnot Hnd].
      destruct (lc p =? line) eqn:E; auto.
Qed.

(** Once a body has suspended at a [PT_YIELD], every later invocation
    returns [PT_YIELDED] from that same yield and runs nothing else. *)
Lemma yield_is_stuck b s p :
  well_labelled b -> PT_YIELD (lc p) ∈ b ->
  protothread b s p = (PT_YIELDED, s, p).
Proof.
  intros Hwl Hin. apply NoDup_cons in Hwl as [H0 Hnd].
  unfold protothread. destruct (lc p =? 0) eqn:E.
  - apply Z.eqb_eq in E. rewrite E in Hin. by apply yield_label in Hin.
  - by rewrite resume_at_yield.
Qed.

End BodyFacts.

(** C1. The body [PT_BEGIN; PT_YIELD; flag = true; PT_END]: the first
    invocation reaches the yield and returns [PT_YIELDED], and so does every
    later one; [flag = true], the statement immediately after the yield, is
    not executed by any of them and the body never ends.  Control resuming
    after the yield would have set [flag] and returned [PT_ENDED]. *)
Theorem yield_never_resumes :
  (forall n : nat,
      invocations (S n) yield_body false {| lc := 0 |}
      = (replicate (S n) PT_YIELDED, false, {| lc := 10 |}))
  /\ protothread yield_body false {| lc := 10 |}
     = (PT_YIELDED, false, {| lc := 10 |})
  /\ exec (drop 1 yield_body) false {| lc := 10 |}
     = (PT_ENDED, true, {| lc := 0 |}).
Proof.
  split; [|split; reflexivity].
  intros n. cbn [invocations].
  change (protothread yield_body false {| lc := 0 |})
    with (PT_YIELDED, false, {| lc := 10 |}).
  cbv iota beta.
  assert (H : invocations n yield_body false {| lc := 10 |}
              = (replicate n PT_YIELDED, false, {| lc := 10 |})).
  { induction n as [|n IH]; [reflexivity|].
    cbn [invocations]. rewrite yield_is_stuck.
    - by rewrite IH.
    - unfold well_labelled, yield_body. cbn.
      apply NoDup_cons; split; [|apply NoDup_singleton].
      intros H%list_elem_of_singleton. discriminate.
    - cbn. apply elem_of_cons. by left. }
  by rewrite H.
Qed.

(** C2. The thread with body [flag1 = true; PT_WAIT_UNTIL(x); flag2 = true]:
    the first [execute()] with [x] false sets [flag1], leaves [flag2] and
    the queue alone, records the wait as the place to resume at and returns
    [PT_WAITING].  Whatever [u1] is then written to the members from
    outside, the next [execute()] tests [x] again: when it is true (set
    from outside) this same invocation sets [flag2] and writes nothing
    else, so [flag1 = true] is not executed again; when it is still false
    the invocation returns [PT_WAITING] and writes nothing. *)
Theorem wait_until_suspends_and_resumes :
  forall (line now1 now2 : Z) (u0 u1 : Flags) (q0 q1 : PTEventQueue),
    line <> 0 -> x u0 = false ->
    exists t1 t2,
      execute now1 (wait_thread line u0) q0 = (PT_WAITING, t1, q0)
      /\ fields t1 = set_flag1 u0
      /\ thread_pt t1 = {| lc := line |}
      /\ execute now2 (set_fields u1 t1) q1
         = (if x u1 then PT_ENDED else PT_WAITING, t2, q1)
      /\ fields t2 = if x u1 then set_flag2 u1 else u1.
Proof.
  intros line now1 now2 u0 u1 q0 q1 Hline Hx0.
  assert (E : (line =? line) = true) by apply Z.eqb_refl.
  assert (E0 : (line =? 0) = false) by by apply Z.eqb_neq.
  set (t1 := (execute now1 (wait_thread line u0) q0).1.2).
  exists t1, (execute now2 (set_fields u1 t1) q1).1.2. subst t1.
  unfold execute, wait_thread, PTThread_new, protothread, wait_body, set_fields.
  cbn. rewrite Hx0. cbn. rewrite E0, E.
  destruct (x u1); cbn; repeat split.
Qed.

Lemma wait_until_suspends_and_resumes_witness :
  let u0 := {| flag1 := false; flag2 := false; x := false |} in
  let u1 := {| flag1 := false; flag2 := false; x := true |} in
  exists t1 t2,
    execute 100 (wait_thread 42 u0) PTEventQueue_new
    = (PT_WAITING, t1, PTEventQueue_new)
    /\ fields t1 = set_flag1 u0
    /\ thread_pt t1 = {| lc := 42 |}
    /\ execute 200 (set_fields u1 t1) PTEventQueue_new
       = (PT_ENDED, t2, PTEventQueue_new)
    /\ fields t2 = set_flag2 u1.
Proof.
  intros u0 u1.
  apply (wait_until_suspends_and_resumes 42 100 200 u0 u1
           PTEventQueue_new PTEventQueue_new).
  - discriminate.
  - reflexivity.
Defined.

(** C3, as amended. [execute()] on a thread whose active flag is cleared
    returns [PT_EXITED], whatever status its body returned last, and changes
    nothing: the thread object (continuation, run counter, last-run time and
    the members the body works on) and the queue are as before, whatever the
    body is. *)
Theorem execute_inactive :
  forall (U : Type) (now : Z) (t : PTThread U) (q : PTEventQueue),
    active t = false -> execute now t q = (PT_EXITED, t, q).
Proof. intros U now t q H. unfold execute. by rewrite H. Qed.

Lemma execute_inactive_witness :
  execute 5 (Thread.stop ending_thread) PTEventQueue_new
  = (PT_EXITED, Thread.stop ending_thread, PTEventQueue_new).
Proof. apply (execute_inactive unit 5 (Thread.stop ending_thread)). reflexivity. Defined.

(** C3, as first stated, fails: the body [PT_BEGIN; PT_END] returns
    [PT_ENDED] and clears the active flag, and the next [execute()] returns
    [PT_EXITED], not that last status. *)
Lemma inactive_execute_forgets_ended :
  let r1 := execute 0 ending_thread PTEventQueue_new in
  r1.1.1 = PT_ENDED
  /\ active r1.1.2 = false
  /\ (execute 1 r1.1.2 r1.2).1.1 <> r1.1.1.
Proof. cbn. repeat split. discriminate. Qed.


(** ** The scheduler *)

Import Scheduler Scenario.

Ltac not_in_list :=
  repeat match goal with
         | |- _ /\ _ => split
         | |- True => exact I
         | |- _ ∉ _ => intros ?
         | |- _ -> False => intros ?
         | H : list_elem_of _ _ |- _ => inversion H; clear H; subst
         | H : _ ∈ _ |- _ => inversion H; clear H; subst
         end.

(** *** Removing an entry from the array *)

Lemma shift_left_spec n : forall (j : nat) (a : list N),
  (j + n < length a)%nat ->
  length (shift_left n (Z.of_nat j) a) = length a
  /\ take (j + n) (shift_left n (Z.of_nat j) a)
     = take j a ++ take n (drop (S j) a).
Proof.
  induction n as [|n IH]; intros j a Hlt.
  - cbn [shift_left]. rewrite Nat.add_0_r, take_0, app_nil_r. done.
  - cbn [shift_left].
    replace (Z.of_nat j + 1) with (Z.of_nat (S j)) by lia.
    rewrite !Nat2Z.id.
    set (a1 := <[j := a !!! S j]> a).
    assert (Hlen1 : length a1 = length a) by apply length_insert.
    destruct (IH (S j) a1 ltac:(lia)) as [Hlen Htake].
    split; [lia|].
    replace (j + S n)%nat with (S j + n)%nat by lia. rewrite Htake.
    assert (Hj : a1 !! j = Some (a !!! S j)).
    { apply list_lookup_insert_eq. lia. }
    rewrite (take_S_r a1 j _ Hj).
    unfold a1. rewrite take_insert_ge by lia. rewrite drop_insert_lt by lia.
    assert (HSj : a !! S j = Some (a !!! S j)).
    { apply list_lookup_lookup_total_lt. lia. }
    rewrite (drop_S a _ (S j) HSj). cbn [take]. by rewrite <- app_assoc.
Qed.

Lemma remove_first_notin p l : p ∉ l -> remove_first p l = l.
Proof.
  induction l as [|y l IH]; intros H; [done|].
  apply not_elem_of_cons in H as [Hne H]. cbn.
  destruct (N.eqb_spec y p); [congruence|]. by rewrite IH.
Qed.

Lemma remove_first_at l : forall i p,
  l !! i = Some p -> p ∉ take i l -> remove_first p l = take i l ++ drop (S i) l.
Proof.
  induction l as [|y l IH]; intros i p Hi Hnot; [done|].
  destruct i as [|i]; cbn in *.
  - inversion Hi; subst. by rewrite N.eqb_refl, drop_0.
  - apply not_elem_of_cons in Hnot as [Hne Hnot].
    destruct (N.eqb_spec y p); [congruence|]. f_equal. by apply IH.
Qed.

Lemma remove_first_app_in p l k :
  p ∈ l -> remove_first p (l ++ k) = remove_first p l ++ k.
Proof.
  induction l as [|y l IH]; intros H; [by apply elem_of_nil in H|].
  cbn. destruct (N.eqb_spec y p); [done|].
  apply elem_of_cons in H as [->|H]; [done|]. by rewrite IH.
Qed.

Lemma remove_first_length_in p l :
  p ∈ l -> S (length (remove_first p l)) = length l.
Proof.
  induction l as [|y l IH]; intros H; [by apply elem_of_nil in H|].
  cbn. destruct (N.eqb_spec y p); [done|].
  apply elem_of_cons in H as [->|H]; [done|]. cbn. by rewrite IH.
Qed.

Lemma remove_first_sublist p l : remove_first p l `sublist_of` l.
Proof.
  induction l as [|y l IH]; [done|]. cbn.
  destruct (y =? p)%N; [by apply sublist_cons|by apply sublist_skip].
Qed.

Lemma remove_first_keeps p x l : x <> p -> x ∈ l -> x ∈ remove_first p l.
Proof.
  intros Hne. induction l as [|y l IH]; intros H; [done|]. cbn.
  apply elem_of_cons in H as [->|H].
  - destruct (N.eqb_spec y p); [congruence|]. apply elem_of_cons; by left.
  - destruct (y =? p)%N; [done|]. apply elem_of_cons; right; auto.
Qed.

Lemma live_length s : sched_ok s -> length (live s) = Z.to_nat (thread_count s).
Proof.
  intros [Hlen Hc]. unfold live. rewrite length_take. unfold MAX_THREADS in *. lia.
Qed.

Lemma live_lookup s (i : nat) :
  sched_ok s -> (i < Z.to_nat (thread_count s))%nat ->
  live s !! i = Some (threads s !!! i).
Proof.
  intros [Hlen Hc] Hi. unfold live. rewrite lookup_take_lt by done.
  apply list_lookup_lookup_total_lt. unfold MAX_THREADS in *. lia.
Qed.

(** The search loop of [removeThread] entered at [i] when the entries
    before [i] are not [thread]. *)
Lemma removeThread_from_spec thread s : forall (n i : nat),
  sched_ok s ->
  (i + n)%nat = Z.to_nat (thread_count s) ->
  thread ∉ take i (live s) ->
  exists s',
    removeThread_from n (Z.of_nat i) thread s
    = (bool_decide (thread ∈ live s), s')
    /\ sched_ok s'
    /\ live s' = remove_first thread (live s)
    /\ global_event_queue s' = global_event_queue s
    /\ scheduler_ticks s' = scheduler_ticks s
    /\ running s' = running s.
Proof.
  intros n i Hok. revert i. induction n as [|n IH]; intros i Hin Hnot.
  - exists s. cbn [removeThread_from].
    rewrite take_ge in Hnot by (rewrite live_length by done; lia).
    rewrite bool_decide_eq_false_2 by done.
    rewrite remove_first_notin by done. done.
  - cbn [removeThread_from]. rewrite Nat2Z.id.
    pose proof (live_lookup s i Hok ltac:(lia)) as Hi.
    destruct (N.eqb_spec (threads s !!! i) thread) as [Heq|Hne].
    + eexists. split.
      { rewrite bool_decide_eq_true_2; [done|].
        apply list_elem_of_lookup. exists i. by rewrite Hi, Heq. }
      split; [|split; [|done]].
      * destruct Hok as [Hlen Hc]. unfold sched_ok, MAX_THREADS in *.
        cbn [threads thread_count set_threads].
        assert (Hw : wrap32 (thread_count s - 1) = thread_count s - 1) by zmod.
        rewrite Hw.
        replace (Z.to_nat (thread_count s - 1 - Z.of_nat i)) with n by lia.
        destruct (shift_left_spec n i (threads s) ltac:(lia)) as [-> _].
        split; [done|lia].
      * pose proof Hok as [Hlen Hc]. unfold MAX_THREADS in *.
        assert (Hw : wrap32 (thread_count s - 1) = thread_count s - 1) by zmod.
        rewrite (remove_first_at (live s) i thread) by (by rewrite ?Hi, ?Heq).
        unfold live at 1. cbn [threads thread_count set_threads]. rewrite Hw.
        replace (Z.to_nat (thread_count s - 1 - Z.of_nat i)) with n by lia.
        destruct (shift_left_spec n i (threads s) ltac:(lia)) as [_ Htake].
        replace (Z.to_nat (thread_count s - 1)) with (i + n)%nat by lia.
        rewrite Htake. unfold live.
        rewrite take_take, Nat.min_l by lia. f_equal.
        rewrite take_drop_commute. f_equal. f_equal. lia.
    + replace (Z.of_nat i + 1) with (Z.of_nat (S i)) by lia.
      apply IH; [lia|].
      rewrite (take_S_r _ _ _ Hi). intros [H|H%list_elem_of_singleton]%elem_of_app; auto.
Qed.

Lemma removeThread_spec thread s :
  sched_ok s ->
  exists s',
    removeThread thread s = (bool_decide (thread ∈ live s), s')
    /\ sched_ok s'
    /\ live s' = remove_first thread (live s)
    /\ global_event_queue s' = global_event_queue s
    /\ scheduler_ticks s' = scheduler_ticks s
    /\ running s' = running s.
Proof.
  intros Hok. unfold removeThread.
  apply (removeThread_from_spec thread s (Z.to_nat (thread_count s)) 0 Hok).
  - lia.
  - rewrite take_0. apply not_elem_of_nil.
Qed.

(** *** Registering a thread *)

Section SchedulerFacts.
Context {U : Type}.
Variable time_us_32 : nat -> Z.
Variable queue_addr : N.
Implicit Types (m : Machine U) (st : pass_state U) (p thread : N).

Lemma addThread_ok p m :
  sched_ok (sched m) -> thread_count (sched m) < MAX_THREADS -> p <> 0%N ->
  exists m',
    addThread queue_addr p m = (true, m')
    /\ sched_ok (sched m')
    /\ live (sched m') = live (sched m) ++ [p]
    /\ thread_count (sched m') = thread_count (sched m) + 1
    /\ objs m' = alter (setEventQueue queue_addr) p (objs m)
    /\ global_event_queue (sched m') = global_event_queue (sched m)
    /\ timer_reads m' = timer_reads m.
Proof.
  intros [Hlen Hc] Hlt Hp. unfold addThread.
  destruct (MAX_THREADS <=? thread_count (sched m)) eqn:E;
    [apply Z.leb_le in E; lia|].
  destruct (N.eqb_spec p 0); [done|]. cbn [orb].
  eexists; split; [reflexivity|]. unfold MAX_THREADS in *.
  assert (Hw : wrap32 (thread_count (sched m) + 1) = thread_count (sched m) + 1)
    by zmod.
  cbn [sched objs timer_reads]. unfold sched_ok, live, MAX_THREADS.
  cbn [threads thread_count set_threads global_event_queue].
  rewrite Hw, length_insert.
  split; [split; [done|lia]|]. split; [|done].
  replace (Z.to_nat (thread_count (sched m) + 1))
    with (S (Z.to_nat (thread_count (sched m)))) by lia.
  rewrite (take_S_r _ _ p) by (apply list_lookup_insert_eq; lia).
  by rewrite take_insert_ge by lia.
Qed.

Lemma addThread_full p m :
  MAX_THREADS <= thread_count (sched m) -> addThread queue_addr p m = (false, m).
Proof.
  intros H. unfold addThread.
  destruct (MAX_THREADS <=? thread_count (sched m)) eqn:E; [done|].
  apply Z.leb_gt in E. lia.
Qed.

Lemma addThread_null m : addThread queue_addr 0%N m = (false, m).
Proof. unfold addThread. cbn. by rewrite orb_true_r. Qed.

(** *** The loop of [runOnce] is the pass over the list *)

Lemma runOnce_loop_spec : forall (todo : list N) st (fuel : nat) m,
  sched_ok (sched m) ->
  live (sched m) = visited st ++ todo ->
  objs m = heap st ->
  global_event_queue (sched m) = queue st ->
  timer_reads m = reads st ->
  (length todo < fuel)%nat ->
  exists m',
    runOnce_loop time_us_32 fuel (Z.of_nat (length (visited st))) m (calls st)
    = Some (m', calls (pass time_us_32 todo st))
    /\ sched_ok (sched m')
    /\ live (sched m') = visited (pass time_us_32 todo st)
    /\ objs m' = heap (pass time_us_32 todo st)
    /\ global_event_queue (sched m') = queue (pass time_us_32 todo st)
    /\ timer_reads m' = reads (pass time_us_32 todo st)
    /\ scheduler_ticks (sched m') = scheduler_ticks (sched m)
    /\ running (sched m') = running (sched m).
Proof.
  induction todo as [|p todo IH]; intros st fuel m Hok Hlive Hobjs Hq Hr Hfuel;
    (destruct fuel as [|fuel]; [cbn in Hfuel; lia|]);
    pose proof (live_length _ Hok) as Hlen; rewrite Hlive, length_app in Hlen;
    pose proof Hok as [_ Hc]; unfold MAX_THREADS in Hc;
    cbn [length] in Hlen; cbn [runOnce_loop pass].
  - destruct (Z.ltb_spec (Z.of_nat (length (visited st))) (thread_count (sched m)));
      [lia|].
    exists m. rewrite app_nil_r in Hlive. done.
  - destruct (Z.ltb_spec (Z.of_nat (length (visited st))) (thread_count (sched m)));
      [|lia].
    rewrite Nat2Z.id.
    assert (Hp : threads (sched m) !!! length (visited st) = p).
    { pose proof (live_lookup (sched m) (length (visited st)) Hok ltac:(lia)) as Hl.
      rewrite Hlive, list_lookup_middle in Hl by done. by inversion Hl. }
    rewrite Hp. unfold deref. rewrite Hobjs.
    assert (Hnext : wrap32 (Z.of_nat (length (visited st)) + 1)
                    = Z.of_nat (length (visited st ++ [p]))).
    { rewrite length_app. cbn [length]. zmod. }
    assert (Hskip : exists m',
      runOnce_loop time_us_32 fuel
        (wrap32 (Z.of_nat (length (visited st)) + 1)) m (calls st)
      = Some (m', calls (pass time_us_32 todo (skip_entry p st)))
      /\ sched_ok (sched m')
      /\ live (sched m') = visited (pass time_us_32 todo (skip_entry p st))
      /\ objs m' = heap (pass time_us_32 todo (skip_entry p st))
      /\ global_event_queue (sched m') = queue (pass time_us_32 todo (skip_entry p st))
      /\ timer_reads m' = reads (pass time_us_32 todo (skip_entry p st))
      /\ scheduler_ticks (sched m') = scheduler_ticks (sched m)
      /\ running (sched m') = running (sched m)).
    { rewrite Hnext.
      apply (IH (skip_entry p st) fuel m); cbn [skip_entry visited heap queue reads];
        try done; [by rewrite <- app_assoc|cbn in Hfuel; lia]. }
    destruct (if (p =? 0)%N then None else heap st !! p) as [t|]; [|exact Hskip].
    unfold isActive. destruct (active t); [|exact Hskip]. clear Hskip.
    rewrite Hr, Hq.
    destruct (execute (time_us_32 (reads st)) t (queue st)) as [[result t'] q'].
    unfold terminal.
    destruct ((result =? PT_ENDED) || (result =? PT_EXITED)) eqn:Hterm.
    + set (m1 := {| objs := <[p:=t']> (heap st);
                    sched := set_queue q' (sched m);
                    timer_reads := S (reads st) |}).
      assert (Hok1 : sched_ok (sched m1)) by exact Hok.
      destruct (removeThread_spec p (sched m1) Hok1)
        as (s2 & -> & Hok2 & Hlive2 & Hq2 & Ht2 & Hrun2).
      assert (Hin : p ∈ visited st ++ [p]).
      { apply elem_of_app. right. by apply list_elem_of_singleton. }
      pose proof (remove_first_length_in _ _ Hin) as Hlen2.
      rewrite length_app in Hlen2. cbn [length] in Hlen2.
      replace (wrap32 (wrap32 (Z.of_nat (length (visited st)) - 1) + 1))
        with (Z.of_nat (length (remove_first p (visited st ++ [p])))) by zmod.
      match goal with |- context [pass time_us_32 todo ?s] => set (st1 := s) end.
      destruct (IH st1 fuel (set_sched s2 m1)) as (m' & Hrun & H1 & H2 & H3 & H4 & H5 & H6 & H7);
        cbn [set_sched sched objs timer_reads visited heap queue reads calls st1];
        try done.
      * rewrite Hlive2. change (live (sched m1)) with (live (sched m)).
        rewrite Hlive.
        replace (visited st ++ p :: todo) with ((visited st ++ [p]) ++ todo)
          by (by rewrite <- app_assoc).
        by apply remove_first_app_in.
      * cbn in Hfuel. lia.
      * exists m'. cbn [set_sched sched] in H6, H7.
        rewrite H6, H7, Ht2, Hrun2. done.
    + rewrite Hnext.
      match goal with |- context [pass time_us_32 todo ?s] => set (st1 := s) end.
      match goal with |- context [runOnce_loop _ _ _ ?x _] => set (m1 := x) end.
      destruct (IH st1 fuel m1) as (m' & Hrun & H1 & H2 & H3 & H4 & H5 & H6 & H7);
        cbn [sched objs timer_reads visited heap queue reads calls st1 m1];
        try done.
      * change (live (set_queue q' (sched m))) with (live (sched m)).
        by rewrite Hlive, <- app_assoc.
      * cbn in Hfuel. lia.
      * exists m'. done.
Qed.

(** [runOnce] returns, and what it returns is the pass over the registered
    threads. *)
Lemma runOnce_spec m :
  sched_ok (sched m) ->
  exists m',
    runOnce time_us_32 m
    = Some (m', calls (pass time_us_32 (live (sched m)) (pass_init m)))
    /\ sched_ok (sched m')
    /\ live (sched m') = visited (pass time_us_32 (live (sched m)) (pass_init m))
    /\ objs m' = heap (pass time_us_32 (live (sched m)) (pass_init m))
    /\ global_event_queue (sched m')
       = queue (pass time_us_32 (live (sched m)) (pass_init m))
    /\ timer_reads m' = reads (pass time_us_32 (live (sched m)) (pass_init m))
    /\ scheduler_ticks (sched m') = wrap32 (scheduler_ticks (sched m) + 1)
    /\ running (sched m') = running (sched m).
Proof.
  intros Hok. unfold runOnce.
  set (m0 := set_sched _ m).
  destruct (runOnce_loop_spec (live (sched m)) (pass_init m)
              (S (Z.to_nat (thread_count (sched m)))) m0)
    as (m' & Hrun & H); try done.
  - rewrite live_length by done. lia.
  - exists m'. split; [exact Hrun|]. exact H.
Qed.

(** *** What a pass does to the list *)

Lemma pass_sublist : forall (todo : list N) st,
  visited (pass time_us_32 todo st) `sublist_of` visited st ++ todo.
Proof.
  induction todo as [|p todo IH]; intros st; cbn [pass].
  - by rewrite app_nil_r.
  - assert (Hskip : visited (pass time_us_32 todo (skip_entry p st))
                    `sublist_of` visited st ++ p :: todo).
    { etrans; [apply IH|]. cbn [skip_entry visited]. by rewrite <- app_assoc. }
    destruct (if (p =? 0)%N then None else heap st !! p) as [t|]; [|exact Hskip].
    destruct (active t); [|exact Hskip].
    destruct (execute _ t (queue st)) as [[result t'] q'].
    etrans; [apply IH|]. cbn [visited].
    replace (visited st ++ p :: todo) with ((visited st ++ [p]) ++ todo)
      by (by rewrite <- app_assoc).
    apply sublist_app; [|done].
    destruct (terminal result); [apply remove_first_sublist|done].
Qed.

Lemma runOnce_NoDup m :
  sched_ok (sched m) -> NoDup (live (sched m)) ->
  exists m', fst <$> runOnce time_us_32 m = Some m'
             /\ sched_ok (sched m') /\ NoDup (live (sched m')).
Proof.
  intros Hok Hnd.
  destruct (runOnce_spec m Hok) as (m' & -> & Hok' & Hlive & _).
  exists m'. split; [done|]. split; [done|].
  rewrite Hlive. eapply sublist_NoDup; [exact Hnd|]. apply (pass_sublist _ (pass_init m)).
Qed.

Lemma apply_op_NoDup m o :
  sched_ok (sched m) -> NoDup (live (sched m)) ->
  match o with AddThread p => p ∉ live (sched m) | _ => True end ->
  exists m', apply_op time_us_32 queue_addr m o = Some m'
             /\ sched_ok (sched m') /\ NoDup (live (sched m')).
Proof.
  intros Hok Hnd Hfresh. destruct o as [p|p|]; cbn [apply_op].
  - eexists; split; [reflexivity|].
    destruct (Z_lt_le_dec (thread_count (sched m)) MAX_THREADS) as [Hlt|Hge].
    + destruct (N.eq_dec p 0%N) as [->|Hp].
      * by rewrite addThread_null.
      * destruct (addThread_ok p m Hok Hlt Hp) as (m' & -> & Hok' & Hlive & _).
        cbn [snd]. split; [done|]. rewrite Hlive.
        apply NoDup_app. split; [done|]. split; [|apply NoDup_singleton].
        intros y Hy ->%list_elem_of_singleton. done.
    + by rewrite addThread_full.
  - eexists; split; [reflexivity|].
    destruct (removeThread_spec p (sched m) Hok) as (s' & -> & Hok' & Hlive & _).
    cbn [snd set_sched sched]. split; [done|]. rewrite Hlive.
    eapply sublist_NoDup; [exact Hnd|apply remove_first_sublist].
  - by apply runOnce_NoDup.
Qed.

Lemma run_sched_ops_NoDup : forall (ops : list sched_op) m,
  sched_ok (sched m) -> NoDup (live (sched m)) ->
  fresh_adds time_us_32 queue_addr ops m ->
  exists m', run_sched_ops time_us_32 queue_addr ops m = Some m'
             /\ sched_ok (sched m') /\ NoDup (live (sched m')).
Proof.
  induction ops as [|o ops IH]; intros m Hok Hnd Hfresh; cbn [run_sched_ops].
  - by exists m.
  - cbn [fresh_adds] in Hfresh. destruct Hfresh as [Ho Hrest].
    destruct (apply_op_NoDup m o Hok Hnd) as (m1 & Happ & Hok1 & Hnd1).
    { by destruct o. }
    rewrite Happ in Hrest |- *. by apply IH.
Qed.

Lemma machine_new_ok (h : gmap N (PTThread U)) (garbage : list N) :
  length garbage = Z.to_nat MAX_THREADS ->
  sched_ok (sched (machine_new h garbage))
  /\ live (sched (machine_new h garbage)) = [].
Proof.
  intros Hlen. unfold sched_ok, live, MAX_THREADS. cbn. split; [|done].
  split; [done|lia].
Qed.

End SchedulerFacts.

(** C4, as amended. Starting from an empty scheduler, after every sequence
    of [addThread], [removeThread] and [runOnce] in which no [addThread] is
    given a pointer that is registered at the time of the call, every
    operation has returned and no pointer occurs twice in the list of
    registered threads. *)
Theorem registered_threads_NoDup :
  forall (U : Type) (time_us_32 : nat -> Z) (queue_addr : N)
         (h : gmap N (PTThread U)) (garbage : list N) (ops : list sched_op),
    length garbage = Z.to_nat MAX_THREADS ->
    fresh_adds time_us_32 queue_addr ops (machine_new h garbage) ->
    exists m',
      run_sched_ops time_us_32 queue_addr ops (machine_new h garbage) = Some m'
      /\ NoDup (live (sched m')).
Proof.
  intros U time_us_32 queue_addr h garbage ops Hlen Hfresh.
  destruct (machine_new_ok h garbage Hlen) as [Hok Hlive].
  destruct (run_sched_ops_NoDup time_us_32 queue_addr ops _ Hok) as (m' & H & _ & Hnd);
    [rewrite Hlive; apply NoDup_nil_2|done|].
  by exists m'.
Qed.

Lemma registered_threads_NoDup_witness :
  exists m',
    run_sched_ops clock the_queue
      [AddThread 1%N; AddThread 2%N; RunOnce; RemoveThread 1%N; AddThread 1%N]
      empty_machine
    = Some m'
    /\ NoDup (live (sched m')).
Proof.
  apply (registered_threads_NoDup unit clock the_queue three_threads
           (replicate 16 0%N)).
  - reflexivity.
  - vm_compute. not_in_list.
Defined.

(** C4, as first stated, fails: [addThread] does not look for the pointer
    in the list, and registering the same thread twice leaves it there
    twice. *)
Lemma addThread_twice_duplicates :
  exists m,
    run_sched_ops clock the_queue [AddThread 1%N; AddThread 1%N] empty_machine
    = Some m
    /\ live (sched m) = [1%N; 1%N]
    /\ ~ NoDup (live (sched m)).
Proof.
  eexists. split; [reflexivity|].
  assert (E : live (sched (addThread the_queue 1
                 (addThread the_queue 1 empty_machine).2).2) = [1%N; 1%N])
    by (vm_compute; reflexivity).
  split; [exact E|]. rewrite E.
  intros [Hnot _]%NoDup_cons. apply Hnot. apply elem_of_cons. by left.
Qed.

(** *** Inactive threads and removals in a pass *)

Section PassFacts.
Context {U : Type}.
Variable time_us_32 : nat -> Z.
Implicit Types (m : Machine U) (st : pass_state U) (p thread : N).

Lemma terminal_calls_app (l k : list (N * Z)) :
  terminal_calls (l ++ k) = terminal_calls l ++ terminal_calls k.
Proof. apply filter_app. Qed.

(** One entry of the pass, for what the lemmas below need: either the
    entry is skipped and nothing but [visited] changes, or it is an active
    thread, which is executed. *)
Lemma pass_cons p todo st :
  pass time_us_32 (p :: todo) st = pass time_us_32 todo (skip_entry p st)
  \/ exists t result t' q',
       heap st !! p = Some t /\ active t = true
       /\ execute (time_us_32 (reads st)) t (queue st) = (result, t', q')
       /\ pass time_us_32 (p :: todo) st
          = pass time_us_32 todo
              {| visited :=
                   if terminal result
                   then remove_first p (visited st ++ [p])
                   else visited st ++ [p];
                 heap := <[p := t']> (heap st);
                 queue := q';
                 reads := S (reads st);
                 calls := calls st ++ [(p, result)] |}.
Proof.
  cbn [pass]. destruct (p =? 0)%N; [by left|].
  destruct (heap st !! p) as [t|] eqn:Ht; [|by left].
  destruct (active t) eqn:Ha; [|by left].
  destruct (execute _ t (queue st)) as [[result t'] q'] eqn:He.
  right. by exists t, result, t', q'.
Qed.

(** A thread whose active flag is cleared is not executed, not written and
    not taken off the list. *)
Lemma pass_inactive p t : forall (todo : list N) st,
  heap st !! p = Some t -> active t = false ->
  heap (pass time_us_32 todo st) !! p = Some t
  /\ (p ∉ (calls st).*1 -> p ∉ (calls (pass time_us_32 todo st)).*1)
  /\ (p ∈ visited st ++ todo -> p ∈ visited (pass time_us_32 todo st)).
Proof.
  intros todo. induction todo as [|p0 todo IH]; intros st Hp Ha.
  - cbn [pass]. by rewrite app_nil_r.
  - destruct (pass_cons p0 todo st) as [->|(t0 & r & t' & q' & Ht0 & Ha0 & He & ->)].
    + destruct (IH (skip_entry p0 st) Hp Ha) as (H1 & H2 & H3).
      split; [done|]. split; [done|].
      intros Hin. apply H3. cbn [skip_entry visited]. by rewrite <- app_assoc.
    + assert (Hne : p0 <> p) by (intros ->; congruence).
      match goal with |- context [pass time_us_32 todo ?s] => set (st1 := s) end.
      destruct (IH st1) as (H1 & H2 & H3);
        [unfold st1; cbn [heap]; by rewrite lookup_insert_ne|done|].
      split; [done|]. split.
      * intros Hnot. apply H2. cbn [st1 calls].
        rewrite fmap_app. cbn. intros [?|?%list_elem_of_singleton]%elem_of_app; auto.
      * intros Hin. apply H3. cbn [st1 visited].
        replace (visited st ++ p0 :: todo) with ((visited st ++ [p0]) ++ todo) in Hin
          by (by rewrite <- app_assoc).
        apply elem_of_app in Hin as [Hin|Hin]; [|apply elem_of_app; by right].
        apply elem_of_app; left.
        destruct (terminal r); [|done]. by apply remove_first_keeps.
Qed.

(** The calls made before stay in the log. *)
Lemma pass_calls_mono c : forall (todo : list N) st,
  c ∈ calls st -> c ∈ calls (pass time_us_32 todo st).
Proof.
  intros todo. induction todo as [|p0 todo IH]; intros st Hc; [done|].
  destruct (pass_cons p0 todo st) as [->|(t0 & r & t' & q' & _ & _ & _ & ->)];
    apply IH; [done|]. cbn [calls]. apply elem_of_app; by left.
Qed.

(** An entry leaves the list only when its [execute()] returned a terminal
    status in this pass. *)
Lemma pass_removed p : forall (todo : list N) st,
  p ∈ visited st ++ todo ->
  p ∈ visited (pass time_us_32 todo st)
  \/ exists r, (p, r) ∈ calls (pass time_us_32 todo st) /\ terminal r = true.
Proof.
  intros todo. induction todo as [|p0 todo IH]; intros st Hin.
  - left. cbn [pass]. by rewrite app_nil_r in Hin.
  - destruct (pass_cons p0 todo st) as [->|(t0 & r & t' & q' & _ & _ & _ & ->)].
    + apply IH. cbn [skip_entry visited]. by rewrite <- app_assoc.
    + match goal with |- context [pass time_us_32 todo ?s] => set (st1 := s) end.
      destruct (terminal r) eqn:Hr.
      * destruct (N.eq_dec p p0) as [->|Hne].
        { right. exists r. split; [|done]. apply pass_calls_mono.
          cbn [st1 calls]. apply elem_of_app; right. by apply list_elem_of_singleton. }
        apply IH. cbn [st1 visited].
        replace (visited st ++ p0 :: todo) with ((visited st ++ [p0]) ++ todo) in Hin
          by (by rewrite <- app_assoc).
        apply elem_of_app in Hin as [Hin|Hin]; [|apply elem_of_app; by right].
        apply elem_of_app; left. by apply remove_first_keeps.
      * apply IH. cbn [st1 visited]. by rewrite <- app_assoc.
Qed.

(** The list shrinks by one entry for each terminal status returned. *)
Lemma pass_count : forall (todo : list N) st,
  (length (visited (pass time_us_32 todo st))
   + length (terminal_calls (calls (pass time_us_32 todo st)))
   = length (visited st) + length todo + length (terminal_calls (calls st)))%nat.
Proof.
  intros todo. induction todo as [|p0 todo IH]; intros st.
  - cbn [pass length]. lia.
  - destruct (pass_cons p0 todo st) as [->|(t0 & r & t' & q' & _ & _ & _ & ->)];
      rewrite IH.
    + cbn [skip_entry visited calls]. rewrite length_app. cbn [length]. lia.
    + cbn [visited calls]. rewrite terminal_calls_app, !length_app.
      unfold terminal_calls at 2. rewrite filter_cons, filter_nil. cbn [snd].
      destruct (terminal r) eqn:Hr.
      * rewrite decide_True by done.
        assert (Hin : p0 ∈ visited st ++ [p0]).
        { apply elem_of_app. right. by apply list_elem_of_singleton. }
        pose proof (remove_first_length_in _ _ Hin) as Hlen.
        rewrite length_app in Hlen. cbn [length] in *. lia.
      * rewrite decide_False by done.
        rewrite length_app. cbn [length]. lia.
Qed.

Lemma runOnce_facts m :
  sched_ok (sched m) ->
  exists m' log,
    runOnce time_us_32 m = Some (m', log)
    /\ sched_ok (sched m')
    /\ (forall p, inactive_at (objs m) p ->
          objs m' !! p = objs m !! p
          /\ (p ∉ log.*1)
          /\ (p ∈ live (sched m) -> p ∈ live (sched m')))
    /\ (forall p, p ∈ live (sched m) ->
          p ∈ live (sched m') \/ exists r, (p, r) ∈ log /\ terminal r = true)
    /\ thread_count (sched m')
       = thread_count (sched m) - Z.of_nat (length (terminal_calls log)).
Proof.
  intros Hok.
  destruct (runOnce_spec time_us_32 m Hok)
    as (m' & Hrun & Hok' & Hlive & Hobjs & _).
  exists m', (calls (pass time_us_32 (live (sched m)) (pass_init m))).
  split; [done|]. split; [done|]. rewrite Hlive, Hobjs. split; [|split].
  - intros p (t & Hp & Ha).
    destruct (pass_inactive p t (live (sched m)) (pass_init m) Hp Ha)
      as (H1 & H2 & H3).
    split; [by rewrite H1|]. split; [apply H2; cbn; apply not_elem_of_nil|done].
  - intros p Hin. by apply pass_removed.
  - pose proof (pass_count (live (sched m)) (pass_init m)) as Hc.
    cbn [pass_init visited calls length] in Hc.
    change (terminal_calls []) with (@nil (N * Z)) in Hc. cbn [length] in Hc.
    rewrite <- Hlive, !live_length in Hc by done.
    destruct Hok as [_ ?], Hok' as [_ ?]. lia.
Qed.

Lemma runOnce_n_facts (n : nat) : forall m,
  sched_ok (sched m) ->
  exists m' log,
    runOnce_n time_us_32 n m = Some (m', log)
    /\ sched_ok (sched m')
    /\ (forall p, inactive_at (objs m) p ->
          objs m' !! p = objs m !! p
          /\ (p ∉ log.*1)
          /\ (p ∈ live (sched m) -> p ∈ live (sched m')))
    /\ (forall p, p ∈ live (sched m) ->
          p ∈ live (sched m') \/ exists r, (p, r) ∈ log /\ terminal r = true)
    /\ thread_count (sched m')
       = thread_count (sched m) - Z.of_nat (length (terminal_calls log)).
Proof.
  induction n as [|n IH]; intros m Hok; cbn [runOnce_n].
  - exists m, []. split; [done|]. split; [done|]. split; [|split].
    + intros p _. split; [done|]. split; [apply not_elem_of_nil|done].
    + intros p Hin. by left.
    + cbn. lia.
  - destruct (runOnce_facts m Hok) as (m1 & log1 & -> & Hok1 & HA1 & HB1 & HC1).
    destruct (IH m1 Hok1) as (m2 & log2 & -> & Hok2 & HA2 & HB2 & HC2).
    exists m2, (log1 ++ log2). split; [done|]. split; [done|]. split; [|split].
    + intros p Hp. destruct (HA1 p Hp) as (E1 & N1 & L1).
      assert (Hp1 : inactive_at (objs m1) p).
      { destruct Hp as (t & Ht & Ha). exists t. by rewrite E1. }
      destruct (HA2 p Hp1) as (E2 & N2 & L2).
      split; [by rewrite E2|]. split; [|auto].
      rewrite fmap_app. intros [?|?]%elem_of_app; auto.
    + intros p Hin. destruct (HB1 p Hin) as [Hin1|(r & Hr & Ht)].
      * destruct (HB2 p Hin1) as [Hin2|(r & Hr & Ht)]; [by left|].
        right. exists r. split; [|done]. apply elem_of_app; by right.
      * right. exists r. split; [|done]. apply elem_of_app; by left.
    + rewrite terminal_calls_app, length_app. lia.
Qed.

End PassFacts.

(** C10. Through any number [n] of [runOnce()] passes, each of which
    returns: a registered thread whose active flag is false (for example
    after [stop()]) is never executed (it is in no call of the log and its
    object, with its continuation and run counter, is as before) and is
    still registered afterwards; a registered pointer is gone from the list
    only if a call of [execute()] on it returned [PT_ENDED] or [PT_EXITED];
    and the registered thread count drops by exactly the number of calls
    that returned such a status, so passes that only skip leave it
    unchanged. *)
Theorem inactive_skipped_not_removed :
  forall (U : Type) (time_us_32 : nat -> Z) (n : nat) (m : Machine U),
    sched_ok (sched m) ->
    exists m' log,
      runOnce_n time_us_32 n m = Some (m', log)
      /\ (forall p, p ∈ live (sched m) -> inactive_at (objs m) p ->
            (p ∉ log.*1)
            /\ objs m' !! p = objs m !! p
            /\ p ∈ live (sched m'))
      /\ (forall p, p ∈ live (sched m) -> p ∉ live (sched m') ->
            exists r, (p, r) ∈ log /\ terminal r = true)
      /\ thread_count (sched m')
         = thread_count (sched m) - Z.of_nat (length (terminal_calls log)).
Proof.
  intros U time_us_32 n m Hok.
  destruct (runOnce_n_facts time_us_32 n m Hok)
    as (m' & log & Hrun & _ & HA & HB & HC).
  exists m', log. split; [done|]. split; [|split; [|done]].
  - intros p Hin Hp. destruct (HA p Hp) as (E & Hnot & Hlive). auto.
  - intros p Hin Hnot. destruct (HB p Hin) as [?|?]; [done|done].
Qed.

Lemma inactive_skipped_not_removed_witness :
  let m := stopThread 1%N (addThreads the_queue [1%N; 2%N; 3%N] empty_machine).2 in
  exists m' log,
    runOnce_n clock 2 m = Some (m', log)
    /\ (1%N ∉ log.*1)
    /\ objs m' !! 1%N = objs m !! 1%N
    /\ 1%N ∈ live (sched m').
Proof.
  intros m.
  assert (Hok : sched_ok (sched m)).
  { split; [reflexivity|].
    assert (thread_count (sched m) = 3) as -> by (vm_compute; reflexivity).
    unfold MAX_THREADS. lia. }
  destruct (inactive_skipped_not_removed unit clock 2 m Hok)
    as (m' & log & Hrun & HA & _).
  exists m', log. split; [exact Hrun|]. apply HA.
  - assert (live (sched m) = [1%N; 2%N; 3%N]) as -> by (vm_compute; reflexivity).
    apply elem_of_cons. by left.
  - exists (Thread.stop (setEventQueue the_queue waiting_thread)).
    split; [vm_compute; reflexivity|reflexivity].
Defined.

(** *** Filling the scheduler *)

Section Capacity.
Context {U : Type}.
Variable queue_addr : N.
Implicit Types (m : Machine U) (ps : list N).

Lemma addThreads_app ps1 : forall ps2 m,
  addThreads queue_addr (ps1 ++ ps2) m
  = ((addThreads queue_addr ps1 m).1
       ++ (addThreads queue_addr ps2 (addThreads queue_addr ps1 m).2).1,
     (addThreads queue_addr ps2 (addThreads queue_addr ps1 m).2).2).
Proof.
  induction ps1 as [|p ps1 IH]; intros ps2 m; cbn [addThreads app].
  - cbn [fst snd app]. by destruct (addThreads queue_addr ps2 m).
  - destruct (addThread queue_addr p m) as [ok m1]. rewrite IH.
    destruct (addThreads queue_addr ps1 m1) as [oks1 m2]. cbn [fst snd].
    by destruct (addThreads queue_addr ps2 m2).
Qed.

Lemma addThreads_ok : forall ps m,
  sched_ok (sched m) ->
  thread_count (sched m) + Z.of_nat (length ps) <= MAX_THREADS ->
  Forall (fun p => p <> 0%N) ps ->
  exists m',
    addThreads queue_addr ps m = (replicate (length ps) true, m')
    /\ sched_ok (sched m')
    /\ live (sched m') = live (sched m) ++ ps
    /\ thread_count (sched m') = thread_count (sched m) + Z.of_nat (length ps).
Proof.
  induction ps as [|p ps IH]; intros m Hok Hroom Hnn; cbn [addThreads length].
  - exists m. rewrite app_nil_r. repeat split; try done; try apply Hok. lia.
  - apply Forall_cons in Hnn as [Hp Hnn]. cbn [length] in Hroom.
    destruct (addThread_ok queue_addr p m Hok ltac:(lia) Hp)
      as (m1 & -> & Hok1 & Hlive1 & Hc1 & _).
    destruct (IH m1 Hok1 ltac:(lia) Hnn) as (m2 & -> & Hok2 & Hlive2 & Hc2).
    exists m2. cbn [replicate]. split; [done|]. split; [done|].
    rewrite Hlive2, Hlive1, Hc2, Hc1, <- app_assoc. split; [done|lia].
Qed.

End Capacity.

(** C9. On an empty scheduler [addThread] called with [MAX_THREADS + 1]
    non-null pointers returns true the first [MAX_THREADS] times and false
    the last time, and the registered threads are then the first
    [MAX_THREADS] pointers, in order, [thread_count] being [MAX_THREADS];
    this holds whether or not the pointers are distinct.  [addThread] of a
    null pointer returns false and changes nothing, on every scheduler. *)
Theorem addThread_capacity :
  forall (U : Type) (queue_addr : N) (h : gmap N (PTThread U))
         (garbage ps : list N),
    length garbage = Z.to_nat MAX_THREADS ->
    length ps = S (Z.to_nat MAX_THREADS) ->
    Forall (fun p => p <> 0%N) ps ->
    (exists m',
        addThreads queue_addr ps (machine_new h garbage)
        = (replicate (Z.to_nat MAX_THREADS) true ++ [false], m')
        /\ thread_count (sched m') = MAX_THREADS
        /\ live (sched m') = take (Z.to_nat MAX_THREADS) ps)
    /\ (forall m : Machine U, addThread queue_addr 0%N m = (false, m)).
Proof.
  intros U queue_addr h garbage ps Hg Hlen Hnn.
  split; [|apply addThread_null].
  destruct (machine_new_ok h garbage Hg) as [Hok Hlive].
  rewrite <- (take_drop (Z.to_nat MAX_THREADS) ps) in Hnn |- *.
  apply Forall_app in Hnn as [Hnn1 Hnn2].
  assert (Hl1 : length (take (Z.to_nat MAX_THREADS) ps) = Z.to_nat MAX_THREADS).
  { rewrite length_take. lia. }
  destruct (drop (Z.to_nat MAX_THREADS) ps) as [|x [|y rest]] eqn:Hdrop;
    pose proof (f_equal length Hdrop) as Hl2; rewrite length_drop, Hlen in Hl2;
    cbn [length] in Hl2; try lia.
  destruct (addThreads_ok queue_addr (take (Z.to_nat MAX_THREADS) ps) _ Hok)
    as (m1 & Hadd & Hok1 & Hlive1 & Hc1); [|done|].
  { rewrite Hl1. cbn. unfold MAX_THREADS. lia. }
  rewrite Hl1 in Hadd, Hc1. cbn [machine_new sched PTScheduler_new thread_count] in Hc1.
  exists m1. rewrite addThreads_app, Hadd. cbn [fst snd addThreads].
  rewrite addThread_full by (unfold MAX_THREADS in *; lia).
  split; [done|]. split; [unfold MAX_THREADS in *; lia|].
  rewrite Hlive1, Hlive. cbn [app].
  by rewrite take_app_length' by done.
Qed.

Lemma addThread_capacity_witness :
  let ps := N.of_nat <$> seq 1 17 in
  (exists m',
      addThreads 100%N ps
        (machine_new (∅ : gmap N (PTThread unit)) (replicate 16 0%N))
      = (replicate (Z.to_nat MAX_THREADS) true ++ [false], m')
      /\ thread_count (sched m') = MAX_THREADS
      /\ live (sched m') = take (Z.to_nat MAX_THREADS) ps)
  /\ (forall m : Machine unit, addThread 100%N 0%N m = (false, m)).
Proof.
  intros ps.
  apply (addThread_capacity unit 100%N ∅ (replicate 16 0%N) ps).
  - reflexivity.
  - reflexivity.
  - unfold ps. cbn. repeat (apply Forall_cons; split; [discriminate|]).
    apply Forall_nil_2.
Defined.

(** *** Removal during a pass *)

Section PassSteps.
Context {U : Type}.
Variable time_us_32 : nat -> Z.
Implicit Types (st : pass_state U) (p : N).

Lemma pass_active p todo st t result t' q' :
  p <> 0%N -> heap st !! p = Some t -> active t = true ->
  execute (time_us_32 (reads st)) t (queue st) = (result, t', q') ->
  pass time_us_32 (p :: todo) st
  = pass time_us_32 todo
      {| visited :=
           if terminal result
           then remove_first p (visited st ++ [p])
           else visited st ++ [p];
         heap := <[p := t']> (heap st);
         queue := q';
         reads := S (reads st);
         calls := calls st ++ [(p, result)] |}.
Proof.
  intros Hp Ht Ha He. cbn [pass].
  destruct (N.eqb_spec p 0); [done|]. by rewrite Ht, Ha, He.
Qed.

End PassSteps.

Lemma execute_active_run_count {U : Type} now (t t' : PTThread U) q q' result :
  active t = true -> execute now t q = (result, t', q') ->
  getRunCount t' = wrap32 (getRunCount t + 1).
Proof.
  intros Ha. unfold execute. rewrite Ha. cbn [negb].
  destruct (run t (fields t, q) (thread_pt t)) as [[r [u' q1]] p'].
  intros H. inversion H; subst. reflexivity.
Qed.

(** C7. Three active threads registered in an empty scheduler, the second
    of which returns [PT_EXITED] when executed: one [runOnce()] executes the
    first, the second and the third, once each and in this order (the log;
    the run counter of each is one higher), and takes the second off the
    list.  The first and the third stay registered, in their order, each
    unless its own status [r1], [r3] was terminal too: when neither is,
    exactly the first and the third are registered afterwards. *)
Theorem removal_during_pass :
  forall (U : Type) (time_us_32 : nat -> Z) (queue_addr : N)
         (h : gmap N (PTThread U)) (garbage : list N)
         (p1 p2 p3 : N) (t1 t2 t3 t1' t2' t3' : PTThread U)
         (r1 r3 : Z) (q1 q2 q3 : PTEventQueue),
    length garbage = Z.to_nat MAX_THREADS ->
    NoDup [p1; p2; p3] ->
    Forall (fun p => p <> 0%N) [p1; p2; p3] ->
    h !! p1 = Some t1 -> h !! p2 = Some t2 -> h !! p3 = Some t3 ->
    active t1 = true -> active t2 = true -> active t3 = true ->
    execute (time_us_32 0%nat) (setEventQueue queue_addr t1) PTEventQueue_new
    = (r1, t1', q1) ->
    execute (time_us_32 1%nat) (setEventQueue queue_addr t2) q1
    = (PT_EXITED, t2', q2) ->
    execute (time_us_32 2%nat) (setEventQueue queue_addr t3) q2
    = (r3, t3', q3) ->
    exists m3 m',
      addThreads queue_addr [p1; p2; p3] (machine_new h garbage)
      = ([true; true; true], m3)
      /\ runOnce time_us_32 m3
         = Some (m', [(p1, r1); (p2, PT_EXITED); (p3, r3)])
      /\ live (sched m')
         = (if terminal r1 then [] else [p1])
             ++ (if terminal r3 then [] else [p3])
      /\ (terminal r1 = false -> terminal r3 = false ->
          live (sched m') = [p1; p3] /\ thread_count (sched m') = 2)
      /\ objs m' !! p1 = Some t1'
      /\ objs m' !! p2 = Some t2'
      /\ objs m' !! p3 = Some t3'
      /\ getRunCount t1' = wrap32 (getRunCount t1 + 1)
      /\ getRunCount t2' = wrap32 (getRunCount t2 + 1)
      /\ getRunCount t3' = wrap32 (getRunCount t3 + 1).
Proof.
  intros U time_us_32 queue_addr h garbage p1 p2 p3 t1 t2 t3 t1' t2' t3'
    r1 r3 q1 q2 q3 Hg Hnd Hnn Ht1 Ht2 Ht3 Ha1 Ha2 Ha3 He1 He2 He3.
  apply NoDup_cons in Hnd as [Hn1 Hnd]. apply NoDup_cons in Hnd as [Hn2 _].
  apply not_elem_of_cons in Hn1 as [H12 Hn1].
  apply not_elem_of_cons in Hn1 as [H13 _].
  apply not_elem_of_cons in Hn2 as [H23 _].
  apply Forall_cons in Hnn as [Hp1 Hnn]. apply Forall_cons in Hnn as [Hp2 Hnn].
  apply Forall_cons in Hnn as [Hp3 _].
  destruct (machine_new_ok h garbage Hg) as [Hok0 Hlive0].
  cbn [addThreads].
  destruct (addThread_ok queue_addr p1 _ Hok0 ltac:(cbn; unfold MAX_THREADS; lia) Hp1)
    as (m1 & -> & Hok1 & Hlive1 & Hc1 & Hobjs1 & Hq1 & Hrd1).
  cbn [machine_new sched PTScheduler_new thread_count] in Hc1.
  destruct (addThread_ok queue_addr p2 m1 Hok1 ltac:(unfold MAX_THREADS; lia) Hp2)
    as (m2 & -> & Hok2 & Hlive2 & Hc2 & Hobjs2 & Hq2 & Hrd2).
  destruct (addThread_ok queue_addr p3 m2 Hok2 ltac:(unfold MAX_THREADS; lia) Hp3)
    as (m3 & -> & Hok3 & Hlive3 & Hc3 & Hobjs3 & Hq3 & Hrd3).
  rewrite Hlive2, Hlive1, Hlive0 in Hlive3. cbn [app] in Hlive3.
  assert (Hh1 : objs m3 !! p1 = Some (setEventQueue queue_addr t1)).
  { rewrite Hobjs3, Hobjs2, Hobjs1. cbn [machine_new objs].
    rewrite !lookup_alter_ne by done. by rewrite lookup_alter_eq, Ht1. }
  assert (Hh2 : objs m3 !! p2 = Some (setEventQueue queue_addr t2)).
  { rewrite Hobjs3, Hobjs2, Hobjs1. cbn [machine_new objs].
    rewrite lookup_alter_ne by done.
    by rewrite lookup_alter_eq, lookup_alter_ne, Ht2 by done. }
  assert (Hh3 : objs m3 !! p3 = Some (setEventQueue queue_addr t3)).
  { rewrite Hobjs3, Hobjs2, Hobjs1. cbn [machine_new objs].
    by rewrite lookup_alter_eq, !lookup_alter_ne, Ht3 by done. }
  assert (Hqueue : global_event_queue (sched m3) = PTEventQueue_new).
  { by rewrite Hq3, Hq2, Hq1. }
  assert (Hreads : timer_reads m3 = 0%nat).
  { by rewrite Hrd3, Hrd2, Hrd1. }
  destruct (runOnce_spec time_us_32 m3 Hok3)
    as (m' & Hrun & Hok' & Hlive' & Hobjs' & _).
  rewrite Hlive3 in Hrun, Hlive', Hobjs'.
  assert (Hst0 : pass_init m3
    = {| visited := []; heap := objs m3; queue := PTEventQueue_new;
         reads := 0; calls := [] |}).
  { unfold pass_init. by rewrite Hqueue, Hreads. }
  rewrite Hst0 in Hrun, Hlive', Hobjs'. clear Hst0.
  match type of Hlive' with context [pass _ _ ?s] => set (st0 := s) in * end.
  assert (Hpass : pass time_us_32 [p1; p2; p3] st0
    = {| visited := (if terminal r1 then [] else [p1])
                      ++ (if terminal r3 then [] else [p3]);
         heap := <[p3 := t3']> (<[p2 := t2']> (<[p1 := t1']> (objs m3)));
         queue := q3;
         reads := 3;
         calls := [(p1, r1); (p2, PT_EXITED); (p3, r3)] |}).
  { unfold st0.
    rewrite (pass_active time_us_32 p1 _ _ (setEventQueue queue_addr t1) r1 t1' q1);
      [|done|exact Hh1|done|exact He1].
    cbn [visited heap calls app reads queue].
    rewrite (pass_active time_us_32 p2 _ _ (setEventQueue queue_addr t2)
               PT_EXITED t2' q2);
      [|done|cbn [heap]; by rewrite lookup_insert_ne by done|done|exact He2].
    change (terminal PT_EXITED) with true. cbn [visited heap calls app reads queue].
    rewrite (pass_active time_us_32 p3 _ _ (setEventQueue queue_addr t3) r3 t3' q3);
      [|done|cbn [heap]; by rewrite !lookup_insert_ne by done|done|exact He3].
    cbn [visited heap calls app reads queue pass]. f_equal.
    destruct (terminal r1), (terminal r3);
      repeat (cbn [remove_first app];
              first [ rewrite N.eqb_refl
                    | match goal with
                      | |- context [(?a =? ?b)%N] =>
                          destruct (N.eqb_spec a b); [congruence|]
                      end ]);
      reflexivity. }
  rewrite Hpass in Hrun, Hlive', Hobjs'. cbn [visited heap calls] in *.
  exists m3, m'. split; [done|]. split; [done|]. split; [done|].
  split.
  { intros Hr1 Hr3. rewrite Hr1, Hr3 in Hlive'. cbn [app] in Hlive'.
    split; [done|].
    pose proof (live_length _ Hok') as Hl. rewrite Hlive' in Hl. cbn in Hl.
    destruct Hok' as [_ ?]. lia. }
  rewrite Hobjs'.
  split; [by rewrite !lookup_insert_ne, lookup_insert_eq by done|].
  split; [by rewrite lookup_insert_ne, lookup_insert_eq by done|].
  split; [by rewrite lookup_insert_eq|].
  split; [|split].
  - by apply (execute_active_run_count _ (setEventQueue queue_addr t1) _ _ _ _ Ha1 He1).
  - by apply (execute_active_run_count _ (setEventQueue queue_addr t2) _ _ _ _ Ha2 He2).
  - by apply (execute_active_run_count _ (setEventQueue queue_addr t3) _ _ _ _ Ha3 He3).
Qed.

Lemma removal_during_pass_witness :
  exists m3 m',
    addThreads the_queue [1%N; 2%N; 3%N] empty_machine = ([true; true; true], m3)
    /\ runOnce clock m3
       = Some (m', [(1%N, PT_WAITING); (2%N, PT_EXITED); (3%N, PT_WAITING)])
    /\ live (sched m') = [1%N; 3%N]
    /\ thread_count (sched m') = 2.
Proof.
  set (e1 := execute (clock 0) (setEventQueue the_queue waiting_thread)
               PTEventQueue_new).
  set (e2 := execute (clock 1) (setEventQueue the_queue exiting_thread) e1.2).
  set (e3 := execute (clock 2) (setEventQueue the_queue waiting_thread) e2.2).
  destruct (removal_during_pass unit clock the_queue three_threads
              (replicate 16 0%N) 1%N 2%N 3%N
              waiting_thread exiting_thread waiting_thread
              e1.1.2 e2.1.2 e3.1.2 PT_WAITING PT_WAITING e1.2 e2.2 e3.2)
    as (m3 & m' & H1 & H2 & _ & H3 & _).
  - reflexivity.
  - repeat (apply NoDup_cons; split; [not_in_list; discriminate|]).
    apply NoDup_nil_2.
  - repeat (apply Forall_cons; split; [discriminate|]). apply Forall_nil_2.
  - reflexivity.
  - reflexivity.
  - reflexivity.
  - reflexivity.
  - reflexivity.
  - reflexivity.
  - reflexivity.
  - reflexivity.
  - reflexivity.
  - exists m3, m'. destruct H3 as [H3 H4]; [reflexivity|reflexivity|]. auto.
Defined.


(** * Further properties *)

(** ** The queue is a bounded FIFO list *)

Import QueueSpec.

Lemma wf_clear q : wf q -> wf (clear q) /\ contents (clear q) = [].
Proof.
  intros (Hlen & _). unfold wf, clear, contents, MAX_EVENTS in *.
  cbn [events head tail count]. split; [|done].
  split; [done|]. split; [lia|]. split; [lia|reflexivity].
Qed.

Lemma contents_nil_iff q : wf q -> contents q = [] <-> count q = 0.
Proof.
  intros (_ & _ & Hc & _). pose proof (contents_length q ltac:(lia)) as Hl.
  split; intros H.
  - rewrite H in Hl. cbn in Hl. lia.
  - rewrite H in Hl. destruct (contents q); [done|]. cbn in Hl. lia.
Qed.

(** One call gives the same answer on the circular buffer and on the list
    of its unread events, and leaves the two in step. *)
Lemma qstep_refines q l var o :
  wf q -> contents q = l ->
  (qstep (q, var) o).1 = (fifo_step (l, var) o).1
  /\ (qstep (q, var) o).2.2 = (fifo_step (l, var) o).2.2
  /\ wf (qstep (q, var) o).2.1
  /\ contents (qstep (q, var) o).2.1 = (fifo_step (l, var) o).2.1.
Proof.
  intros Hwf Hc. pose proof Hwf as (_ & _ & Hcount & _).
  pose proof (contents_length q ltac:(lia)) as Hlen. rewrite Hc in Hlen.
  destruct o as [e| | | |]; cbn [qstep fifo_step].
  - rewrite Hlen. destruct (Z.ltb_spec (count q) MAX_EVENTS) as [Hlt|Hge].
    + destruct (push_spec e q Hwf Hlt) as (q' & -> & Hwf' & Hc' & _).
      cbn [fst snd]. by rewrite Hc', Hc.
    + rewrite push_full by done. cbn [fst snd]. done.
  - destruct l as [|e l].
    + apply contents_nil_iff in Hc; [|done]. rewrite pop_empty by done.
      cbn [fst snd]. split; [done|]. split; [done|]. split; [done|].
      by apply contents_nil_iff.
    + cbn [length] in Hlen.
      destruct (pop_spec var q Hwf ltac:(lia)) as (e' & q' & -> & Hwf' & Hc' & _).
      rewrite Hc in Hc'. inversion Hc'; subst. cbn [fst snd]. done.
  - cbn [fst snd]. destruct (wf_clear q Hwf) as [? ?]. done.
  - cbn [fst snd]. unfold size. by rewrite Hlen.
  - cbn [fst snd]. split; [|done]. f_equal. unfold isEmpty.
    destruct (Z.eqb_spec (count q) 0) as [H0|Hne].
    + apply contents_nil_iff in H0; [|done]. rewrite Hc in H0.
      by rewrite bool_decide_eq_true_2.
    + rewrite bool_decide_eq_false_2; [done|]. intros ->.
      apply Hne. apply contents_nil_iff; done.
Qed.

Lemma run_with_refines (ops : list qop) : forall q l var,
  wf q -> contents q = l ->
  (run_with qstep ops (q, var)).1 = (run_with fifo_step ops (l, var)).1
  /\ (run_with qstep ops (q, var)).2.2 = (run_with fifo_step ops (l, var)).2.2
  /\ wf (run_with qstep ops (q, var)).2.1
  /\ contents (run_with qstep ops (q, var)).2.1
     = (run_with fifo_step ops (l, var)).2.1.
Proof.
  induction ops as [|o ops IH]; intros q l var Hwf Hc; cbn [run_with].
  - done.
  - destruct (qstep_refines q l var o Hwf Hc) as (H1 & H2 & H3 & H4).
    destruct (qstep (q, var) o) as [out [q1 v1]].
    destruct (fifo_step (l, var) o) as [out' [l1 v1']].
    cbn [fst snd] in *. subst out' v1'.
    destruct (IH q1 l1 v1 H3 H4) as (I1 & I2 & I3 & I4).
    destruct (run_with qstep ops (q1, v1)) as [outs st2].
    destruct (run_with fifo_step ops (l1, v1)) as [outs' st2'].
    cbn [fst snd] in *. by subst outs'.
Qed.

(** X1. Refinement: on a queue that starts empty, every sequence of
    [push], [pop], [clear], [size] and [isEmpty] calls returns exactly what
    the same calls return on a list of at most [MAX_EVENTS] events that is
    appended to by [push], beheaded by [pop] and emptied by [clear]; the
    unread events of the buffer are that list. *)
Theorem queue_refines_fifo :
  forall ops : list qop,
    let c := run_with qstep ops (PTEventQueue_new, PTEvent_default) in
    let a := run_with fifo_step ops ([], PTEvent_default) in
    c.1 = a.1 /\ c.2.2 = a.2.2 /\ contents c.2.1 = a.2.1.
Proof.
  intros ops c a.
  destruct (run_with_refines ops PTEventQueue_new [] PTEvent_default wf_new)
    as (H1 & H2 & _ & H4); [reflexivity|]. done.
Qed.

(** X2. Memory safety of the buffer: after every sequence of calls the
    array still has its [MAX_EVENTS] slots, [head] and [tail] index inside
    it, and [head] is [count] slots ahead of [tail] round the array. *)
Theorem queue_indices_in_bounds :
  forall ops : list qop,
    let q := (run_with qstep ops (PTEventQueue_new, PTEvent_default)).2.1 in
    length (events q) = Z.to_nat MAX_EVENTS
    /\ 0 <= head q < MAX_EVENTS
    /\ 0 <= tail q < MAX_EVENTS
    /\ head q = (tail q + count q) mod MAX_EVENTS.
Proof.
  intros ops q.
  destruct (run_with_refines ops PTEventQueue_new [] PTEvent_default wf_new)
    as (_ & _ & (Hlen & Ht & Hc & Hh) & _); [reflexivity|].
  fold q in Hlen, Ht, Hc, Hh. repeat split; try done; zmod.
Qed.

Lemma push_all_spec (es : list PTEvent) : forall q,
  wf q ->
  let k := Z.to_nat (MAX_EVENTS - count q) in
  (push_all es q).1
  = replicate (min k (length es)) true ++ replicate (length es - k) false
  /\ wf (push_all es q).2
  /\ contents (push_all es q).2 = contents q ++ take k es.
Proof.
  induction es as [|e es IH]; intros q Hwf k; cbn [push_all].
  - cbn [fst snd length]. rewrite Nat.min_0_r, take_nil, !app_nil_r. done.
  - pose proof Hwf as (_ & _ & Hcount & _).
    destruct (Z_lt_le_dec (count q) MAX_EVENTS) as [Hlt|Hge].
    + destruct (push_spec e q Hwf Hlt) as (q1 & -> & Hwf1 & Hc1 & Hn1 & _).
      destruct (IH q1 Hwf1) as (I1 & I2 & I3).
      destruct (push_all es q1) as [oks q2]. cbn [fst snd] in *.
      assert (Hk : k = S (Z.to_nat (MAX_EVENTS - count q1))) by (unfold k; lia).
      rewrite Hk, I1, I3, Hc1. cbn [length take]. rewrite <- app_assoc.
      split; [|done]. cbn [Nat.min replicate app]. f_equal.
    + rewrite push_full by done.
      destruct (IH q Hwf) as (I1 & I2 & I3).
      destruct (push_all es q) as [oks q2]. cbn [fst snd] in *.
      assert (Hk : k = 0%nat) by (unfold k; lia).
      rewrite Hk in *. replace (Z.to_nat (MAX_EVENTS - count q)) with 0%nat in * by lia.
      rewrite I1, I3. cbn. rewrite Nat.sub_0_r. done.
Qed.

(** X3. Overflow drops the newest events: pushing the events [es] one
    after the other on a queue with [k] free slots accepts the first [k]
    of them, which become the last unread events in their order, and
    rejects all the others; the events unread before are kept. *)
Theorem push_all_keeps_oldest :
  forall (es : list PTEvent) (q : PTEventQueue),
    wf q ->
    let k := Z.to_nat (MAX_EVENTS - count q) in
    (push_all es q).1
    = replicate (min k (length es)) true ++ replicate (length es - k) false
    /\ contents (push_all es q).2 = contents q ++ take k es.
Proof.
  intros es q Hwf k. destruct (push_all_spec es q Hwf) as (H1 & _ & H3). done.
Qed.

Lemma push_all_keeps_oldest_witness :
  let es := (fun d => PTEvent_make 0 USER_EVENT (Z.of_nat d)) <$> seq 0 40 in
  (push_all es PTEventQueue_new).1 = replicate 32 true ++ replicate 8 false
  /\ contents (push_all es PTEventQueue_new).2 = take 32 es.
Proof.
  intros es.
  apply (push_all_keeps_oldest es PTEventQueue_new).
  unfold wf, PTEventQueue_new, MAX_EVENTS; cbn [events head tail count].
  split; [reflexivity|]. split; [lia|]. split; [lia|reflexivity].
Defined.

(** ** Dispatch on the continuation *)

Section DispatchFacts.
Context {St : Type}.
Implicit Types (b k pre : list (stmt St)) (s : St) (p : pt).

Lemma labels_app pre k : labels (pre ++ k) = labels pre ++ labels k.
Proof.
  induction pre as [|c pre IH]; [done|].
  destruct c; cbn; by rewrite ?IH.
Qed.

(** The switch entered with the label of a [PT_WAIT_UNTIL] lands on its
    test, whatever stands before it. *)
Lemma resume_at_wait pre line condition k s p :
  NoDup (labels (pre ++ PT_WAIT_UNTIL line condition :: k)) ->
  lc p = line ->
  resume (pre ++ PT_WAIT_UNTIL line condition :: k) s p
  = Some (let '(c, s') := condition s in
          if c then exec k s' p else (PT_WAITING, s', p)).
Proof.
  intros Hnd Hlc. induction pre as [|c pre IH]; cbn [app resume].
  - by rewrite Hlc, Z.eqb_refl.
  - rewrite labels_app in Hnd. cbn [app labels] in Hnd.
    assert (Hin : line ∈ labels pre ++ line :: labels k).
    { apply elem_of_app. right. apply elem_of_cons. by left. }
    destruct c as [f|l c|l|]; cbn [labels app] in Hnd;
      try (apply IH; by rewrite labels_app).
    + apply NoDup_cons in Hnd as [Hnot Hnd].
      destruct (Z.eqb_spec (lc p) l) as [E|_]; [congruence|].
      apply IH. by rewrite labels_app.
    + apply NoDup_cons in Hnd as [Hnot Hnd].
      destruct (Z.eqb_spec (lc p) l) as [E|_]; [congruence|].
      apply IH. by rewrite labels_app.
Qed.

Lemma resume_no_label b s p : lc p ∉ labels b -> resume b s p = None.
Proof.
  induction b as [|c b IH]; intros Hnot; [done|].
  destruct c as [f|l c|l|]; cbn [labels resume] in *; auto.
  - apply not_elem_of_cons in Hnot as [Hne Hnot].
    destruct (Z.eqb_spec (lc p) l); [done|auto].
  - apply not_elem_of_cons in Hnot as [Hne Hnot].
    destruct (Z.eqb_spec (lc p) l); [done|auto].
Qed.



End DispatchFacts.

Lemma protothread_at_wait {St : Type} (pre k : list (stmt St)) (line : Z)
    (condition : St -> bool * St) (s : St) (p : pt) :
  well_labelled (pre ++ PT_WAIT_UNTIL line condition :: k) ->
  lc p = line ->
  protothread (pre ++ PT_WAIT_UNTIL line condition :: k) s p
  = (let '(c, s') := condition s in
     if c then exec k s' p else (PT_WAITING, s', p)).
Proof.
  intros Hwl Hlc.
  apply NoDup_cons in Hwl as [H0 Hnd]. unfold protothread.
  destruct (Z.eqb_spec (lc p) 0) as [E|_].
  - exfalso. apply H0. rewrite labels_app. cbn [labels].
    apply elem_of_app. right. apply elem_of_cons. left. congruence.
  - by rewrite resume_at_wait.
Qed.



(** X5. A continuation that is neither 0 nor the line of a wait or yield
    of the body ends the thread: the switch has no such case, no statement
    of the body runs, the continuation is reset to 0 and [PT_ENDED] is
    returned. *)
Theorem unknown_continuation_ends :
  forall (St : Type) (b : list (stmt St)) (s : St) (p : pt),
    lc p <> 0 -> lc p ∉ labels b ->
    protothread b s p = (PT_ENDED, s, {| lc := 0 |}).
Proof.
  intros St b s p H0 Hnot. unfold protothread.
  destruct (Z.eqb_spec (lc p) 0); [done|]. by rewrite resume_no_label.
Qed.

Lemma unknown_continuation_ends_witness :
  protothread Bodies.yield_body false {| lc := 11 |}
  = (PT_ENDED, false, {| lc := 0 |}).
Proof.
  apply (unknown_continuation_ends bool Bodies.yield_body false {| lc := 11 |}).
  - discriminate.
  - cbn. intros H%list_elem_of_singleton. discriminate.
Defined.


(** ** Semaphores *)

Section SemFacts.
Context {St : Type}.
Variable sem : St -> Semaphore.pt_sem.
Variable set_sem : Semaphore.pt_sem -> St -> St.
Hypothesis Hplace : Semaphore.sem_place sem set_sem.
Implicit Types (k pre : list (stmt St)) (s : St) (p : pt).

Local Abbreviation cnt s := (Semaphore.count (sem s)).
Local Abbreviation put c s := (set_sem {| Semaphore.count := c |} s).

Lemma put_same s : put (cnt s) s = s.
Proof.
  destruct Hplace as (_ & _ & Hget).
  assert (E : {| Semaphore.count := cnt s |} = sem s) by (by destruct (sem s)).
  rewrite E. apply Hget.
Qed.

Lemma sem_wait_exec line k s p :
  0 <= cnt s < 2 ^ 32 ->
  exec (Semaphore.PT_SEM_WAIT sem set_sem line ++ k) s p
  = if cnt s =? 0 then (PT_WAITING, s, {| lc := line |})
    else exec k (put (cnt s - 1) s) {| lc := line |}.
Proof.
  intros Hc. cbn [Semaphore.PT_SEM_WAIT app exec].
  destruct (Z.ltb_spec 0 (cnt s)), (Z.eqb_spec (cnt s) 0); try lia; [|done].
  replace (wrap32 (cnt s - 1)) with (cnt s - 1) by zmod. done.
Qed.

Lemma sem_waits_exec (lines : list Z) : forall k s p,
  0 <= cnt s < 2 ^ 32 ->
  exec (Semaphore.sem_waits sem set_sem lines ++ k) s p
  = if Z.of_nat (length lines) <=? cnt s
    then exec k (put (cnt s - Z.of_nat (length lines)) s)
           (from_option mkPt p (last lines))
    else (PT_WAITING, put 0 s, {| lc := lines !!! Z.to_nat (cnt s) |}).
Proof.
  destruct Hplace as (Hss & Hset & _).
  induction lines as [|l lines IH]; intros k s p Hc.
  - cbn [Semaphore.sem_waits fmap list_fmap concat app length last from_option].
    destruct (Z.leb_spec (Z.of_nat 0) (cnt s)); [|lia].
    by rewrite Z.sub_0_r, put_same.
  - unfold Semaphore.sem_waits. cbn [fmap list_fmap concat].
    rewrite <- app_assoc. fold (Semaphore.sem_waits sem set_sem lines).
    rewrite sem_wait_exec by done.
    destruct (Z.eqb_spec (cnt s) 0) as [E0|Hne].
    + destruct (Z.leb_spec (Z.of_nat (length (l :: lines))) (cnt s)) as [H|_];
        [cbn [length] in H; lia|].
      rewrite E0. cbn. rewrite <- E0 at 1. by rewrite put_same.
    + rewrite IH by (rewrite Hss; cbn; lia).
      rewrite Hss. cbn [Semaphore.count length].
      destruct (Z.leb_spec (Z.of_nat (length lines)) (cnt s - 1)),
               (Z.leb_spec (Z.of_nat (S (length lines))) (cnt s)); try lia.
      * rewrite Hset.
        replace (cnt s - Z.of_nat (S (length lines)))
          with (cnt s - 1 - Z.of_nat (length lines)) by lia.
        replace (from_option mkPt p (last (l :: lines)))
          with (from_option mkPt {| lc := l |} (last lines))
          by (destruct lines as [|z lines']; [reflexivity|];
              change (last (l :: z :: lines')) with (last (z :: lines'));
              destruct (last (z :: lines')) eqn:E; [reflexivity|];
              by apply last_None in E).
        done.
      * rewrite Hset. f_equal.
        replace (Z.to_nat (cnt s)) with (S (Z.to_nat (cnt s - 1))) by lia.
        done.
Qed.

End SemFacts.

Lemma sem_wait_resume {St : Type} (sem : St -> Semaphore.pt_sem)
    (set_sem : Semaphore.pt_sem -> St -> St)
    (pre k : list (stmt St)) (line : Z) (s : St) :
  0 <= Semaphore.count (sem s) < 2 ^ 32 ->
  well_labelled (pre ++ Semaphore.PT_SEM_WAIT sem set_sem line ++ k) ->
  protothread (pre ++ Semaphore.PT_SEM_WAIT sem set_sem line ++ k) s
    {| lc := line |}
  = if Semaphore.count (sem s) =? 0 then (PT_WAITING, s, {| lc := line |})
    else exec k
           (set_sem {| Semaphore.count := Semaphore.count (sem s) - 1 |} s)
           {| lc := line |}.
Proof.
  intros Hc Hwl. cbn [Semaphore.PT_SEM_WAIT app] in *.
  rewrite (protothread_at_wait pre _ line _ s {| lc := line |} Hwl eq_refl).
  cbn [exec].
  destruct (Z.ltb_spec 0 (Semaphore.count (sem s))),
           (Z.eqb_spec (Semaphore.count (sem s)) 0); try lia; [|done].
  replace (wrap32 (Semaphore.count (sem s) - 1))
    with (Semaphore.count (sem s) - 1) by zmod. done.
Qed.

(** X7. [PT_SEM_WAIT] never takes the counter below zero.  Reached from
    above or resumed at, on a semaphore whose counter is 0 it returns
    [PT_WAITING] and leaves the storage as it is; on a counter above 0 it
    takes exactly one off and goes on with the statements that follow. *)
Theorem sem_wait_blocks_at_zero :
  forall (St : Type) (sem : St -> Semaphore.pt_sem)
         (set_sem : Semaphore.pt_sem -> St -> St)
         (pre k : list (stmt St)) (line : Z) (s : St) (p : pt),
    Semaphore.sem_place sem set_sem ->
    0 <= Semaphore.count (sem s) < 2 ^ 32 ->
    well_labelled (pre ++ Semaphore.PT_SEM_WAIT sem set_sem line ++ k) ->
    let after :=
      if Semaphore.count (sem s) =? 0 then (PT_WAITING, s, {| lc := line |})
      else exec k
             (set_sem {| Semaphore.count := Semaphore.count (sem s) - 1 |} s)
             {| lc := line |} in
    exec (Semaphore.PT_SEM_WAIT sem set_sem line ++ k) s p = after
    /\ protothread (pre ++ Semaphore.PT_SEM_WAIT sem set_sem line ++ k) s
         {| lc := line |}
       = after.
Proof.
  intros St sem set_sem pre k line s p Hplace Hc Hwl after.
  split; [by apply sem_wait_exec|]. by apply sem_wait_resume.
Qed.

Lemma sem_place_id :
  Semaphore.sem_place (fun s : Semaphore.pt_sem => s) (fun v _ => v).
Proof. repeat split. Qed.

Lemma sem_wait_blocks_at_zero_witness :
  let sem := fun s : Semaphore.pt_sem => s in
  let set_sem := fun (v : Semaphore.pt_sem) (_ : Semaphore.pt_sem) => v in
  let s := {| Semaphore.count := 2 |} in
  exec (Semaphore.PT_SEM_WAIT sem set_sem 9 ++ []) s {| lc := 0 |}
  = (PT_ENDED, {| Semaphore.count := 1 |}, {| lc := 0 |})
  /\ protothread ([] ++ Semaphore.PT_SEM_WAIT sem set_sem 9 ++ []) s {| lc := 9 |}
     = (PT_ENDED, {| Semaphore.count := 1 |}, {| lc := 0 |}).
Proof.
  intros sem set_sem s.
  apply (sem_wait_blocks_at_zero Semaphore.pt_sem sem set_sem [] [] 9 s
           {| lc := 0 |}).
  - exact sem_place_id.
  - cbn. lia.
  - unfold well_labelled. cbn.
    apply NoDup_cons; split; [|apply NoDup_singleton].
    intros H%list_elem_of_singleton. discriminate.
Defined.

(** X8. A semaphore counts permits: after [PT_SEM_INIT(s, c)] a run of
    [PT_SEM_WAIT]s passes all of them and leaves [c] less their number when
    there are at most [c]; otherwise it passes the first [c], stops at the
    next with [PT_WAITING] and leaves the counter at 0. *)
Theorem sem_counts_permits :
  forall (St : Type) (sem : St -> Semaphore.pt_sem)
         (set_sem : Semaphore.pt_sem -> St -> St)
         (lines : list Z) (k : list (stmt St)) (c : Z) (s : St) (p : pt),
    Semaphore.sem_place sem set_sem ->
    0 <= c < 2 ^ 32 ->
    exec (Semaphore.sem_waits sem set_sem lines ++ k)
      (Semaphore.PT_SEM_INIT set_sem c s) p
    = if Z.of_nat (length lines) <=? c
      then exec k
             (Semaphore.PT_SEM_INIT set_sem (c - Z.of_nat (length lines)) s)
             (from_option mkPt p (last lines))
      else (PT_WAITING, Semaphore.PT_SEM_INIT set_sem 0 s,
            {| lc := lines !!! Z.to_nat c |}).
Proof.
  intros St sem set_sem lines k c s p Hplace Hc.
  pose proof Hplace as (Hss & Hset & _). unfold Semaphore.PT_SEM_INIT.
  replace (wrap32 c) with c by zmod. change (wrap32 0) with 0.
  rewrite (sem_waits_exec sem set_sem Hplace) by (by rewrite Hss).
  rewrite Hss. cbn [Semaphore.count]. rewrite !Hset.
  destruct (Z.leb_spec (Z.of_nat (length lines)) c); [|done].
  replace (wrap32 (c - Z.of_nat (length lines)))
    with (c - Z.of_nat (length lines)) by zmod.
  done.
Qed.

Lemma sem_counts_permits_witness :
  let sem := fun s : Semaphore.pt_sem => s in
  let set_sem := fun (v : Semaphore.pt_sem) (_ : Semaphore.pt_sem) => v in
  exec (Semaphore.sem_waits sem set_sem [11; 12; 13] ++ [])
    (Semaphore.PT_SEM_INIT set_sem 2 {| Semaphore.count := 7 |}) {| lc := 0 |}
  = (PT_WAITING, {| Semaphore.count := 0 |}, {| lc := 13 |}).
Proof.
  intros sem set_sem.
  apply (sem_counts_permits Semaphore.pt_sem sem set_sem [11; 12; 13] [] 2
           {| Semaphore.count := 7 |} {| lc := 0 |}).
  - exact sem_place_id.
  - change (2 ^ 32) with 4294967296. lia.
Defined.

(** X9. A signal wakes a waiter: a body suspended at a [PT_SEM_WAIT] on a
    counter of 0 stays there; once [PT_SEM_SIGNAL] has run on the storage
    (in another protothread), its next invocation passes the wait, the
    counter is 0 again and the rest of the storage is as before the
    signal. *)
Theorem sem_signal_wakes_waiter :
  forall (St : Type) (sem : St -> Semaphore.pt_sem)
         (set_sem : Semaphore.pt_sem -> St -> St)
         (pre k : list (stmt St)) (line : Z) (s : St) (p : pt),
    Semaphore.sem_place sem set_sem ->
    Semaphore.count (sem s) = 0 ->
    well_labelled (pre ++ Semaphore.PT_SEM_WAIT sem set_sem line ++ k) ->
    let body := pre ++ Semaphore.PT_SEM_WAIT sem set_sem line ++ k in
    let signalled := (exec (Semaphore.PT_SEM_SIGNAL sem set_sem) s p).1.2 in
    protothread body s {| lc := line |} = (PT_WAITING, s, {| lc := line |})
    /\ Semaphore.count (sem signalled) = 1
    /\ protothread body signalled {| lc := line |} = exec k s {| lc := line |}.
Proof.
  intros St sem set_sem pre k line s p Hplace H0 Hwl body signalled.
  pose proof Hplace as (Hss & Hset & Hget).
  assert (Hsig : signalled = set_sem {| Semaphore.count := 1 |} s).
  { unfold signalled. cbn. by rewrite H0. }
  unfold body. split; [|split].
  - rewrite sem_wait_resume; [|rewrite H0; lia|exact Hwl]. by rewrite H0.
  - by rewrite Hsig, Hss.
  - rewrite sem_wait_resume; [|rewrite Hsig, Hss; cbn; lia|exact Hwl].
    rewrite Hsig, Hss. cbn [Semaphore.count Z.eqb Z.sub Z.pos_sub].
    rewrite Hset. f_equal.
    rewrite <- (Hget s) at 2. destruct (sem s) as [c]. cbn in H0. by subst c.
Qed.

Lemma sem_signal_wakes_waiter_witness :
  let sem := fun s : Semaphore.pt_sem => s in
  let set_sem := fun (v : Semaphore.pt_sem) (_ : Semaphore.pt_sem) => v in
  let s := {| Semaphore.count := 0 |} in
  let body := [] ++ Semaphore.PT_SEM_WAIT sem set_sem 9 ++ [] in
  let signalled :=
    (exec (Semaphore.PT_SEM_SIGNAL sem set_sem) s {| lc := 0 |}).1.2 in
  protothread body s {| lc := 9 |} = (PT_WAITING, s, {| lc := 9 |})
  /\ Semaphore.count (sem signalled) = 1
  /\ protothread body signalled {| lc := 9 |} = exec [] s {| lc := 9 |}.
Proof.
  intros sem set_sem s.
  apply (sem_signal_wakes_waiter Semaphore.pt_sem sem set_sem [] [] 9 s
           {| lc := 0 |}).
  - exact sem_place_id.
  - reflexivity.
  - unfold well_labelled. cbn.
    apply NoDup_cons; split; [|apply NoDup_singleton].
    intros H%list_elem_of_singleton. discriminate.
Defined.

(** ** Restarting a thread *)

(** X12. [init()] restarts a thread from the top, whatever state it is in
    (suspended in the middle of its body, stopped, or ended): the next
    [execute()] runs the body from its first statement, on the members as
    they were left ([init()] does not reset them), and the run counter is
    then 1.  The thread is active afterwards unless this first run returned
    a terminal status. *)
Theorem init_restarts_from_the_top :
  forall (U : Type) (b : list (stmt (U * PTEventQueue)))
         (now : Z) (t : PTThread U) (q : PTEventQueue),
    Thread.run t = protothread b ->
    let r := exec b (fields t, q) {| lc := 0 |} in
    execute now (init t) q
    = (r.1.1,
       {| thread_pt := r.2;
          active := negb (terminal r.1.1);
          name := name t;
          last_run_time := now;
          run_count := 1;
          Thread.event_queue := Thread.event_queue t;
          fields := r.1.2.1;
          Thread.run := Thread.run t |},
       r.1.2.2).
Proof.
  intros U b now t q Hrun r. unfold r, execute, init.
  cbn [active negb Thread.run fields thread_pt run_count name Thread.event_queue].
  rewrite Hrun. unfold protothread at 1, PT_INIT. cbn [lc Z.eqb].
  destruct (exec b (fields t, q) {| lc := 0 |}) as [[res [u' q']] p'].
  cbn [fst snd]. unfold terminal.
  destruct ((res =? PT_ENDED) || (res =? PT_EXITED)); reflexivity.
Qed.

Lemma init_restarts_from_the_top_witness :
  let t := (execute 1 (Bodies.wait_thread 42 (Bodies.mkFlags false false true))
              PTEventQueue_new).1.2 in
  active t = false
  /\ (execute 2 (init t) PTEventQueue_new).1.1 = PT_ENDED
  /\ getRunCount (execute 2 (init t) PTEventQueue_new).1.2 = 1.
Proof.
  intros t.
  pose proof (init_restarts_from_the_top Bodies.Flags (Bodies.wait_body 42) 2 t
                PTEventQueue_new eq_refl) as H.
  cbv zeta in H. rewrite H. repeat split.
Defined.

(** ** Adding and removing threads *)

Lemma remove_first_split p (l : list N) :
  p ∈ l ->
  exists l1 l2, l = l1 ++ p :: l2 /\ (p ∉ l1) /\ remove_first p l = l1 ++ l2.
Proof.
  induction l as [|y l IH]; intros H; [by apply elem_of_nil in H|].
  cbn [remove_first]. destruct (N.eqb_spec y p) as [->|Hne].
  - exists [], l. split; [done|]. split; [apply not_elem_of_nil|done].
  - apply elem_of_cons in H as [->|H]; [done|].
    destruct (IH H) as (l1 & l2 & -> & Hnot & ->).
    exists (y :: l1), l2. split; [done|]. split; [|done].
    apply not_elem_of_cons. split; [congruence|done].
Qed.

Lemma removeThread_from_notin thread s : forall (n i : nat),
  sched_ok s ->
  (i + n)%nat = Z.to_nat (thread_count s) ->
  thread ∉ live s ->
  removeThread_from n (Z.of_nat i) thread s = (false, s).
Proof.
  intros n i Hok. revert i. induction n as [|n IH]; intros i Hin Hnot; [done|].
  cbn [removeThread_from]. rewrite Nat2Z.id.
  pose proof (live_lookup s i Hok ltac:(lia)) as Hi.
  destruct (N.eqb_spec (threads s !!! i) thread) as [Heq|Hne].
  - exfalso. apply Hnot. apply list_elem_of_lookup. exists i. by rewrite Hi, Heq.
  - replace (Z.of_nat i + 1) with (Z.of_nat (S i)) by lia. apply IH; [lia|done].
Qed.

(** X13. [removeThread]: for a pointer that is not registered it returns
    false and changes nothing at all; for a registered one it returns true
    and takes its first entry off the list, the other entries keeping their
    order, [thread_count] being one less and the queue, the tick counter
    and the running flag being untouched. *)
Theorem removeThread_effect :
  forall (thread : N) (s : PTScheduler),
    sched_ok s ->
    (thread ∉ live s -> removeThread thread s = (false, s))
    /\ (thread ∈ live s ->
        exists s' l1 l2,
          removeThread thread s = (true, s')
          /\ live s = l1 ++ thread :: l2 /\ (thread ∉ l1)
          /\ live s' = l1 ++ l2
          /\ thread_count s' = thread_count s - 1
          /\ sched_ok s'
          /\ global_event_queue s' = global_event_queue s
          /\ scheduler_ticks s' = scheduler_ticks s
          /\ running s' = running s).
Proof.
  intros thread s Hok. split.
  - intros Hnot. unfold removeThread.
    by apply (removeThread_from_notin thread s (Z.to_nat (thread_count s)) 0).
  - intros Hin.
    destruct (removeThread_spec thread s Hok) as (s' & Hrm & Hok' & Hlive & Hq & Ht & Hr).
    rewrite bool_decide_eq_true_2 in Hrm by done.
    destruct (remove_first_split thread (live s) Hin) as (l1 & l2 & Hl & Hnot & Hrf).
    exists s', l1, l2. rewrite Hlive, Hrf.
    repeat (split; [done|]). split; [|done].
    pose proof (live_length s Hok) as L. pose proof (live_length s' Hok') as L'.
    rewrite Hlive, Hrf in L'. rewrite Hl in L. rewrite !length_app in *.
    cbn [length] in L. destruct Hok as [_ ?], Hok' as [_ ?]. lia.
Qed.

Lemma removeThread_effect_witness :
  let s := {| threads := [5; 6; 5; 7]%N ++ replicate 12 0%N;
              thread_count := 4;
              global_event_queue := PTEventQueue_new;
              scheduler_ticks := 0;
              running := false |} in
  removeThread 9%N s = (false, s)
  /\ (exists s' l1 l2,
        removeThread 5%N s = (true, s')
        /\ live s = l1 ++ 5%N :: l2 /\ (5%N ∉ l1)
        /\ live s' = l1 ++ l2
        /\ thread_count s' = thread_count s - 1
        /\ sched_ok s'
        /\ global_event_queue s' = global_event_queue s
        /\ scheduler_ticks s' = scheduler_ticks s
        /\ running s' = running s).
Proof.
  intros s.
  assert (Hok : sched_ok s).
  { split; [reflexivity|]. cbn. unfold MAX_THREADS. lia. }
  split.
  - apply (proj1 (removeThread_effect 9%N s Hok)). cbn. not_in_list.
  - apply (proj2 (removeThread_effect 5%N s Hok)). cbn.
    apply elem_of_cons. by left.
Defined.

(** X14. Registering a thread and removing it again: on a scheduler with
    room, [addThread] of a non-null pointer that is not registered followed
    by [removeThread] of it gives back the list of registered threads and
    the count; both calls return true.  The thread object stays bound to
    the scheduler's queue: [removeThread] does not undo
    [setEventQueue]. *)
Theorem addThread_removeThread_round_trip :
  forall (U : Type) (queue_addr thread : N) (m : Machine U) (t : PTThread U),
    sched_ok (sched m) ->
    thread_count (sched m) < MAX_THREADS ->
    thread <> 0%N -> thread ∉ live (sched m) ->
    objs m !! thread = Some t ->
    exists m1 s2,
      addThread queue_addr thread m = (true, m1)
      /\ removeThread thread (sched m1) = (true, s2)
      /\ live s2 = live (sched m)
      /\ thread_count s2 = thread_count (sched m)
      /\ objs m1 !! thread = Some (setEventQueue queue_addr t)
      /\ (forall p, p <> thread -> objs m1 !! p = objs m !! p).
Proof.
  intros U queue_addr thread m t Hok Hroom Hnn Hnot Ht.
  destruct (addThread_ok queue_addr thread m Hok Hroom Hnn)
    as (m1 & Hadd & Hok1 & Hlive1 & Hc1 & Hobjs1 & _).
  assert (Hin : thread ∈ live (sched m1)).
  { rewrite Hlive1. apply elem_of_app. right. by apply list_elem_of_singleton. }
  destruct (removeThread_spec thread (sched m1) Hok1)
    as (s2 & Hrm & Hok2 & Hlive2 & _).
  rewrite bool_decide_eq_true_2 in Hrm by done.
  assert (Hl : live s2 = live (sched m)).
  { rewrite Hlive2, Hlive1.
    destruct (decide (thread ∈ live (sched m))) as [|_]; [done|].
    clear -Hnot. induction (live (sched m)) as [|y l IH]; cbn.
    - by rewrite N.eqb_refl.
    - apply not_elem_of_cons in Hnot as [Hne Hnot].
      destruct (N.eqb_spec y thread); [congruence|]. by rewrite IH. }
  exists m1, s2. split; [done|]. split; [done|]. split; [done|].
  split.
  { pose proof (live_length _ Hok) as L. pose proof (live_length _ Hok2) as L2.
    rewrite Hl in L2. destruct Hok as [_ ?], Hok2 as [_ ?]. lia. }
  rewrite Hobjs1. split.
  - by rewrite lookup_alter_eq, Ht.
  - intros p Hp. by rewrite lookup_alter_ne.
Qed.

Lemma addThread_removeThread_round_trip_witness :
  exists m1 s2,
    addThread the_queue 2%N empty_machine = (true, m1)
    /\ removeThread 2%N (sched m1) = (true, s2)
    /\ live s2 = live (sched empty_machine)
    /\ thread_count s2 = thread_count (sched empty_machine)
    /\ objs m1 !! 2%N = Some (setEventQueue the_queue exiting_thread)
    /\ (forall p, p <> 2%N -> objs m1 !! p = objs empty_machine !! p).
Proof.
  apply (addThread_removeThread_round_trip unit the_queue 2%N empty_machine
           exiting_thread).
  - split; [reflexivity|]. cbn. unfold MAX_THREADS. lia.
  - cbn. unfold MAX_THREADS. lia.
  - discriminate.
  - cbn. apply not_elem_of_nil.
  - reflexivity.
Defined.

(** ** One pass: order, fairness, retirement *)

Import SchedulerRun.

Lemma execute_active_facts {U : Type} now (t t' : PTThread U) q q' result :
  active t = true -> execute now t q = (result, t', q') ->
  Thread.run t' = Thread.run t
  /\ result = (Thread.run t (fields t, q) (thread_pt t)).1.1
  /\ active t' = negb (terminal result).
Proof.
  intros Ha. unfold execute. rewrite Ha. cbn [negb].
  destruct (Thread.run t (fields t, q) (thread_pt t)) as [[r [u' q1]] p'].
  intros H. inversion H; subst. cbn [Thread.run active fst snd].
  unfold terminal.
  destruct ((result =? PT_ENDED) || (result =? PT_EXITED)); cbn; auto.
Qed.

Section PassOrder.
Context {U : Type}.
Variable time_us_32 : nat -> Z.
Implicit Types (m : Machine U) (st : pass_state U) (p : N).

(** The calls of a pass go down the list. *)
Lemma pass_calls_order : forall (todo : list N) st,
  exists new,
    calls (pass time_us_32 todo st) = calls st ++ new
    /\ new.*1 `sublist_of` todo
    /\ reads (pass time_us_32 todo st) = (reads st + length new)%nat.
Proof.
  induction todo as [|p0 todo IH]; intros st.
  - exists []. cbn. rewrite app_nil_r. split; [done|]. split; [done|lia].
  - destruct (pass_cons time_us_32 p0 todo st)
      as [->|(t0 & r & t' & q' & _ & _ & _ & ->)].
    + destruct (IH (skip_entry p0 st)) as (new & H1 & H2 & H3).
      exists new. split; [done|]. split; [by apply sublist_cons|done].
    + match goal with |- context [pass time_us_32 todo ?s] => set (st1 := s) end.
      destruct (IH st1) as (new & H1 & H2 & H3).
      exists ((p0, r) :: new). rewrite H1, H3. unfold st1. cbn [calls reads].
      rewrite <- app_assoc. split; [done|].
      split; [cbn; by apply sublist_skip|cbn [length]; lia].
Qed.

(** A pass over active threads whose bodies never return a terminal status
    executes every entry and keeps them all. *)
Lemma pass_all_running : forall (todo : list N) st,
  bodies_terminal false (heap st) ->
  (forall p, p ∈ todo ->
     p <> 0%N /\ exists t, heap st !! p = Some t /\ active t = true) ->
  visited (pass time_us_32 todo st) = visited st ++ todo
  /\ (calls (pass time_us_32 todo st)).*1 = (calls st).*1 ++ todo
  /\ bodies_terminal false (heap (pass time_us_32 todo st))
  /\ (forall p, (exists t, heap st !! p = Some t /\ active t = true) ->
        exists t, heap (pass time_us_32 todo st) !! p = Some t /\ active t = true).
Proof.
  induction todo as [|p0 todo IH]; intros st Hb Hact.
  - cbn [pass]. rewrite !app_nil_r. done.
  - destruct (Hact p0) as (Hp0 & t0 & Ht0 & Ha0); [apply elem_of_cons; by left|].
    destruct (execute (time_us_32 (reads st)) t0 (queue st)) as [[r t'] q'] eqn:He.
    destruct (execute_active_facts _ _ _ _ _ _ Ha0 He) as (Hrun & Hr & Ha').
    assert (Hnt : terminal r = false) by (rewrite Hr; by eapply Hb).
    rewrite (pass_active time_us_32 p0 todo st t0 r t' q' Hp0 Ht0 Ha0 He), Hnt.
    match goal with |- context [pass time_us_32 todo ?s] => set (st1 := s) end.
    assert (Hkeep : forall p, (exists t, heap st !! p = Some t /\ active t = true) ->
                      exists t, heap st1 !! p = Some t /\ active t = true).
    { intros p (t & Ht & Ha). unfold st1; cbn [heap].
      destruct (decide (p = p0)) as [->|Hne].
      - exists t'. rewrite lookup_insert_eq. by rewrite Ha', Hnt.
      - exists t. by rewrite lookup_insert_ne. }
    destruct (IH st1) as (H1 & H2 & H3 & H4).
    + intros p t. unfold st1; cbn [heap].
      destruct (decide (p = p0)) as [->|Hne].
      * rewrite lookup_insert_eq. intros [= <-] s c. rewrite Hrun. by eapply Hb.
      * rewrite lookup_insert_ne by done. apply Hb.
    + intros p Hin. destruct (Hact p) as [Hp Hex]; [apply elem_of_cons; by right|].
      split; [done|]. by apply Hkeep.
    + rewrite H1, H2. unfold st1; cbn [visited calls].
      rewrite fmap_app, <- !app_assoc. cbn. split; [done|]. split; [done|].
      split; [done|]. intros p Hp. apply H4. by apply Hkeep.
Qed.

(** A call that returned a terminal status leaves its thread inactive. *)
Lemma pass_retired_inactive : forall (todo : list N) st,
  (forall p r, (p, r) ∈ calls st -> terminal r = true ->
     inactive_at (heap st) p) ->
  forall p r, (p, r) ∈ calls (pass time_us_32 todo st) -> terminal r = true ->
    inactive_at (heap (pass time_us_32 todo st)) p.
Proof.
  induction todo as [|p0 todo IH]; intros st Hinv p r Hin Hr.
  - by apply (Hinv p r).
  - destruct (pass_cons time_us_32 p0 todo st)
      as [E|(t0 & r0 & t' & q' & Ht0 & Ha0 & He & E)]; rewrite E in Hin |- *.
    + by apply (IH (skip_entry p0 st) Hinv p r).
    + destruct (execute_active_facts _ _ _ _ _ _ Ha0 He) as (_ & _ & Ha').
      match type of Hin with context [pass time_us_32 todo ?s] => set (st1 := s) in * end.
      apply (IH st1) with (r := r); [|done|done].
      intros p1 r1 Hc1 Hr1. unfold st1 in Hc1 |- *; cbn [calls heap] in *.
      apply elem_of_app in Hc1 as [Hc1|Hc1%list_elem_of_singleton].
      * destruct (Hinv p1 r1 Hc1 Hr1) as (t1 & Ht1 & Ha1).
        exists t1. rewrite lookup_insert_ne; [done|]. intros ->. congruence.
      * inversion Hc1; subst p1 r1. exists t'. rewrite lookup_insert_eq.
        split; [done|]. by rewrite Ha', Hr1.
Qed.

Lemma remove_first_last p (l : list N) : p ∉ l -> remove_first p (l ++ [p]) = l.
Proof.
  induction l as [|y l IH]; intros Hnot; cbn.
  - by rewrite N.eqb_refl.
  - apply not_elem_of_cons in Hnot as [Hne Hnot].
    destruct (N.eqb_spec y p); [congruence|]. by rewrite IH.
Qed.

(** On a list without duplicates such a call takes its thread off the
    list for good. *)
Lemma pass_retired_off_list : forall (todo : list N) st,
  NoDup (visited st ++ todo) ->
  (forall p r, (p, r) ∈ calls st -> terminal r = true ->
     p ∉ visited st ++ todo) ->
  forall p r, (p, r) ∈ calls (pass time_us_32 todo st) -> terminal r = true ->
    p ∉ visited (pass time_us_32 todo st).
Proof.
  induction todo as [|p0 todo IH]; intros st Hnd Hinv p r Hin Hr.
  - cbn [pass] in *. rewrite app_nil_r in Hinv. by apply (Hinv p r).
  - assert (Happ : visited st ++ p0 :: todo = (visited st ++ [p0]) ++ todo)
      by (by rewrite <- app_assoc).
    destruct (pass_cons time_us_32 p0 todo st)
      as [E|(t0 & r0 & t' & q' & Ht0 & Ha0 & He & E)]; rewrite E in Hin |- *.
    + apply (IH (skip_entry p0 st)) with (r := r); cbn [skip_entry visited calls];
        rewrite <- ?Happ; done.
    + match type of Hin with context [pass time_us_32 todo ?s] => set (st1 := s) in * end.
      rewrite Happ in Hnd, Hinv.
      pose proof Hnd as (Hnd1 & Hdis & Hnd2)%NoDup_app.
      pose proof Hnd1 as (Hv & Hv0 & _)%NoDup_app.
      assert (Hnv : p0 ∉ visited st).
      { intros Hv1. apply (Hv0 p0 Hv1). by apply list_elem_of_singleton. }
      assert (Hp0 : p0 ∉ visited st ++ todo).
      { intros [?|Hp0]%elem_of_app; [done|].
        apply (Hdis p0); [|done]. apply elem_of_app; right.
        by apply list_elem_of_singleton. }
      assert (Hnd' : NoDup (visited st ++ todo)).
      { apply NoDup_app. split; [done|]. split; [|done].
        intros x Hx. apply Hdis. apply elem_of_app; by left. }
      assert (Hless : forall x, x ∉ (visited st ++ [p0]) ++ todo ->
                        x ∉ visited st ++ todo).
      { intros x Hx [?|?]%elem_of_app; apply Hx; apply elem_of_app; auto.
        left. apply elem_of_app; by left. }
      apply (IH st1) with (r := r); [| |done|done];
        unfold st1; cbn [visited calls].
      * destruct (terminal r0); [by rewrite remove_first_last|done].
      * intros p1 r1 Hc1 Hr1.
        apply elem_of_app in Hc1 as [Hc1|Hc1%list_elem_of_singleton].
        -- pose proof (Hinv p1 r1 Hc1 Hr1) as Hn1.
           destruct (terminal r0); [rewrite remove_first_last by done; auto|done].
        -- inversion Hc1; subst p1 r1. rewrite Hr1.
           by rewrite remove_first_last.
Qed.

End PassOrder.

(** X15. [runOnce()] always returns on a well-formed scheduler.  It adds
    one to the tick counter, leaves the running flag alone, never adds an
    entry or reorders the list (the list afterwards is a sublist of the
    list before), calls [execute()] on threads in the order of the list, on
    each entry at most once, and reads the timer once per call. *)
Theorem runOnce_terminates_in_order :
  forall (U : Type) (time_us_32 : nat -> Z) (m : Machine U),
    sched_ok (sched m) ->
    exists m' log,
      runOnce time_us_32 m = Some (m', log)
      /\ sched_ok (sched m')
      /\ scheduler_ticks (sched m') = wrap32 (scheduler_ticks (sched m) + 1)
      /\ running (sched m') = running (sched m)
      /\ live (sched m') `sublist_of` live (sched m)
      /\ log.*1 `sublist_of` live (sched m)
      /\ timer_reads m' = (timer_reads m + length log)%nat.
Proof.
  intros U time_us_32 m Hok.
  destruct (runOnce_spec time_us_32 m Hok)
    as (m' & Hrun & Hok' & Hlive & _ & _ & Hreads & Hticks & Hrunning).
  destruct (pass_calls_order time_us_32 (live (sched m)) (pass_init m))
    as (new & Hcalls & Hsub & Hr).
  cbn [pass_init calls reads app] in Hcalls, Hr.
  exists m', new. rewrite Hrun, Hcalls, Hlive, Hreads, Hr.
  repeat (split; [done|]). split; [|done].
  apply (pass_sublist time_us_32 (live (sched m)) (pass_init m)).
Qed.

Lemma runOnce_terminates_in_order_witness :
  let m := (addThreads the_queue [1%N; 2%N; 3%N] empty_machine).2 in
  exists m' log,
    runOnce clock m = Some (m', log)
    /\ live (sched m') `sublist_of` live (sched m)
    /\ log.*1 `sublist_of` live (sched m).
Proof.
  intros m.
  assert (Hok : sched_ok (sched m)).
  { split; [reflexivity|].
    assert (thread_count (sched m) = 3) as -> by (vm_compute; reflexivity).
    unfold MAX_THREADS. lia. }
  destruct (runOnce_terminates_in_order unit clock m Hok)
    as (m' & log & H1 & _ & _ & _ & H2 & H3 & _).
  by exists m', log.
Defined.

Section PassesFacts.
Context {U : Type}.
Variable time_us_32 : nat -> Z.
Implicit Types (m : Machine U).

Lemma runOnce_round_robin m :
  sched_ok (sched m) -> all_active m -> bodies_terminal false (objs m) ->
  exists m' log,
    runOnce time_us_32 m = Some (m', log)
    /\ log.*1 = live (sched m)
    /\ live (sched m') = live (sched m)
    /\ sched_ok (sched m') /\ all_active m'
    /\ bodies_terminal false (objs m').
Proof.
  intros Hok Hact Hb.
  destruct (runOnce_spec time_us_32 m Hok)
    as (m' & Hrun & Hok' & Hlive & Hobjs & _).
  destruct (pass_all_running time_us_32 (live (sched m)) (pass_init m) Hb Hact)
    as (H1 & H2 & H3 & H4).
  cbn [pass_init visited calls app fmap list_fmap] in H1, H2.
  exists m', (calls (pass time_us_32 (live (sched m)) (pass_init m))).
  rewrite Hlive, H1, Hobjs. repeat (split; [done|]). split; [|done].
  intros p Hp. rewrite Hlive, H1 in Hp. destruct (Hact p Hp) as [Hnn Hex].
  split; [done|]. rewrite Hobjs. by apply H4.
Qed.

End PassesFacts.

(** X16. Round robin: when every registered pointer points to an active
    thread and no thread body ever returns [PT_ENDED] or [PT_EXITED] (such
    as the state machines of [pt-test-simple.cpp], which always return
    [PT_WAITING]), [n] passes make [n] rounds of calls, each round calling
    every registered thread once in registration order, and the list stays
    as it is. *)
Theorem round_robin_passes :
  forall (U : Type) (time_us_32 : nat -> Z) (n : nat) (m : Machine U),
    sched_ok (sched m) -> all_active m -> bodies_terminal false (objs m) ->
    exists m' log,
      runOnce_n time_us_32 n m = Some (m', log)
      /\ log.*1 = concat (replicate n (live (sched m)))
      /\ live (sched m') = live (sched m).
Proof.
  intros U time_us_32 n. induction n as [|n IH]; intros m Hok Hact Hb;
    cbn [runOnce_n].
  - by exists m, [].
  - destruct (runOnce_round_robin time_us_32 m Hok Hact Hb)
      as (m1 & log1 & -> & Hl1 & Hlive1 & Hok1 & Hact1 & Hb1).
    destruct (IH m1 Hok1 Hact1 Hb1) as (m2 & log2 & -> & Hl2 & Hlive2).
    exists m2, (log1 ++ log2). split; [done|].
    rewrite fmap_app, Hl1, Hl2, Hlive1, Hlive2. done.
Qed.

Lemma addThread_bodies {U : Type} (b : bool) queue_addr p (m : Machine U) :
  bodies_terminal b (objs m) ->
  bodies_terminal b (objs (addThread queue_addr p m).2).
Proof.
  intros Hb. unfold addThread.
  destruct ((MAX_THREADS <=? thread_count (sched m)) || (p =? 0)%N); [done|].
  cbn [snd objs]. intros p0 t0 Hl s c.
  destruct (decide (p = p0)) as [->|Hne].
  - rewrite lookup_alter_eq in Hl. apply fmap_Some in Hl as (t & Ht & ->).
    cbn. by eapply Hb.
  - rewrite lookup_alter_ne in Hl by done. by eapply Hb.
Qed.

Lemma addThreads_bodies {U : Type} (b : bool) queue_addr (ps : list N) :
  forall m : Machine U,
    bodies_terminal b (objs m) ->
    bodies_terminal b (objs (addThreads queue_addr ps m).2).
Proof.
  induction ps as [|p ps IH]; intros m Hb; cbn [addThreads]; [done|].
  pose proof (addThread_bodies b queue_addr p m Hb) as H1.
  destruct (addThread queue_addr p m) as [ok m1]. cbn [snd] in H1.
  pose proof (IH m1 H1) as H2.
  by destruct (addThreads queue_addr ps m1).
Qed.

Lemma polling_bodies : bodies_terminal false polling_threads.
Proof.
  intros p t Hp s c. unfold polling_threads in Hp.
  apply lookup_insert_Some in Hp as [[_ <-]|[_ Hp]]; [reflexivity|].
  apply lookup_singleton_Some in Hp as [_ <-]. reflexivity.
Qed.

Lemma round_robin_passes_witness :
  let m := (addThreads the_queue [2%N; 1%N]
              (machine_new polling_threads (replicate 16 0%N))).2 in
  exists m' log,
    runOnce_n clock 3 m = Some (m', log)
    /\ log.*1 = concat (replicate 3 (live (sched m)))
    /\ live (sched m') = live (sched m).
Proof.
  intros m.
  apply (round_robin_passes unit clock 3 m).
  - split; [reflexivity|].
    assert (thread_count (sched m) = 2) as -> by (vm_compute; reflexivity).
    unfold MAX_THREADS. lia.
  - intros p Hp.
    assert (live (sched m) = [2%N; 1%N]) as E by (vm_compute; reflexivity).
    rewrite E in Hp.
    apply elem_of_cons in Hp as [->|Hp];
      [|apply list_elem_of_singleton in Hp as ->].
    + split; [discriminate|]. eexists. split; [vm_compute; reflexivity|reflexivity].
    + split; [discriminate|]. eexists. split; [vm_compute; reflexivity|reflexivity].
  - apply addThreads_bodies. cbn [machine_new objs]. exact polling_bodies.
Defined.

(** X17. A thread retired by a pass is inactive afterwards: whenever a
    call of [execute()] in a pass returned [PT_ENDED] or [PT_EXITED], the
    thread object has its active flag cleared at the end of the pass, and
    when the list had no duplicates the pointer is no longer in it. *)
Theorem retired_threads_are_inactive :
  forall (U : Type) (time_us_32 : nat -> Z) (m : Machine U),
    sched_ok (sched m) ->
    exists m' log,
      runOnce time_us_32 m = Some (m', log)
      /\ forall p r, (p, r) ∈ log -> terminal r = true ->
           inactive_at (objs m') p
           /\ (NoDup (live (sched m)) -> p ∉ live (sched m')).
Proof.
  intros U time_us_32 m Hok.
  destruct (runOnce_spec time_us_32 m Hok)
    as (m' & Hrun & Hok' & Hlive & Hobjs & _).
  exists m', (calls (pass time_us_32 (live (sched m)) (pass_init m))).
  split; [done|]. intros p r Hin Hr. rewrite Hobjs, Hlive. split.
  - apply (pass_retired_inactive time_us_32 _ (pass_init m)) with (r := r);
      [|done|done].
    intros p1 r1 Hc. cbn in Hc. by apply elem_of_nil in Hc.
  - intros Hnd.
    apply (pass_retired_off_list time_us_32 _ (pass_init m)) with (r := r);
      [done| |done|done].
    intros p1 r1 Hc. cbn in Hc. by apply elem_of_nil in Hc.
Qed.

Lemma retired_threads_are_inactive_witness :
  let m := (addThreads the_queue [1%N; 2%N; 3%N] empty_machine).2 in
  exists m' log,
    runOnce clock m = Some (m', log)
    /\ forall p r, (p, r) ∈ log -> terminal r = true ->
         inactive_at (objs m') p
         /\ (NoDup (live (sched m)) -> p ∉ live (sched m')).
Proof.
  intros m.
  apply (retired_threads_are_inactive unit clock m).
  split; [reflexivity|].
  assert (thread_count (sched m) = 3) as -> by (vm_compute; reflexivity).
  unfold MAX_THREADS. lia.
Defined.

(** ** [run()] *)

Section RunFacts.
Context {U : Type}.
Variable time_us_32 : nat -> Z.
Implicit Types (m : Machine U).

(** The loop of [run()] is left only with an empty list: nothing in it
    clears the running flag. *)
Lemma run_loop_exit (fuel : nat) : forall m log m' log',
  sched_ok (sched m) -> running (sched m) = true ->
  run_loop time_us_32 fuel m log = Some (m', log') ->
  thread_count (sched m') = 0 /\ running (sched m') = true.
Proof.
  induction fuel as [|fuel IH]; intros m log m' log' Hok Hr H; [done|].
  cbn [run_loop] in H. rewrite Hr in H. cbn [andb] in H.
  destruct (Z.ltb_spec 0 (thread_count (sched m))) as [Hpos|Hz].
  - destruct (runOnce_spec time_us_32 m Hok)
      as (m1 & Hrun & Hok1 & _ & _ & _ & _ & _ & Hr1).
    rewrite Hrun in H. apply IH in H; [done|done|]. by rewrite Hr1.
  - inversion H; subst. destruct Hok as [_ ?]. split; [lia|done].
Qed.

(** While a thread with its active flag cleared is registered the loop
    goes on. *)
Lemma run_loop_spins (fuel : nat) : forall m log p,
  sched_ok (sched m) -> running (sched m) = true ->
  p ∈ live (sched m) -> inactive_at (objs m) p ->
  run_loop time_us_32 fuel m log = None.
Proof.
  induction fuel as [|fuel IH]; intros m log p Hok Hr Hin Hp; [done|].
  cbn [run_loop]. rewrite Hr. cbn [andb].
  assert (Hpos : 0 < thread_count (sched m)).
  { pose proof (live_length _ Hok) as L. destruct (live (sched m)); [|cbn in L; lia].
    by apply elem_of_nil in Hin. }
  destruct (Z.ltb_spec 0 (thread_count (sched m))); [|lia].
  destruct (runOnce_facts time_us_32 m Hok)
    as (m1 & log1 & Hrun & Hok1 & HA & _).
  destruct (runOnce_spec time_us_32 m Hok)
    as (m1' & Hrun' & _ & _ & _ & _ & _ & _ & Hr1).
  rewrite Hrun in Hrun'. inversion Hrun'; subst m1'.
  rewrite Hrun. destruct (HA p Hp) as (E & _ & L).
  apply (IH m1 _ p); [done|by rewrite Hr1|by apply L|].
  destruct Hp as (t & Ht & Ha). exists t. by rewrite E.
Qed.

(** One pass over distinct active threads that all return a terminal
    status empties the list. *)
Lemma pass_all_exit : forall (todo : list N) (st : pass_state U),
  visited st = [] -> NoDup todo ->
  bodies_terminal true (heap st) ->
  (forall p, p ∈ todo ->
     p <> 0%N /\ exists t, heap st !! p = Some t /\ active t = true) ->
  (forall c, c ∈ calls st -> terminal c.2 = true) ->
  visited (pass time_us_32 todo st) = []
  /\ (calls (pass time_us_32 todo st)).*1 = (calls st).*1 ++ todo
  /\ (forall c, c ∈ calls (pass time_us_32 todo st) -> terminal c.2 = true).
Proof.
  induction todo as [|p0 todo IH]; intros st Hv Hnd Hb Hact Hc.
  - cbn [pass]. by rewrite app_nil_r.
  - apply NoDup_cons in Hnd as [Hp0 Hnd].
    destruct (Hact p0) as (Hnn & t0 & Ht0 & Ha0); [apply elem_of_cons; by left|].
    destruct (execute (time_us_32 (reads st)) t0 (queue st)) as [[r t'] q'] eqn:He.
    destruct (execute_active_facts _ _ _ _ _ _ Ha0 He) as (Hrun & Hr & Ha').
    assert (Ht : terminal r = true) by (rewrite Hr; by eapply Hb).
    rewrite (pass_active time_us_32 p0 todo st t0 r t' q' Hnn Ht0 Ha0 He), Ht, Hv.
    cbn [app remove_first]. rewrite N.eqb_refl.
    match goal with |- context [pass time_us_32 todo ?s] => set (st1 := s) end.
    destruct (IH st1) as (H1 & H2 & H3); try done.
    + intros p t. unfold st1; cbn [heap].
      destruct (decide (p = p0)) as [->|Hne].
      * rewrite lookup_insert_eq. intros [= <-] s c. rewrite Hrun. by eapply Hb.
      * rewrite lookup_insert_ne by done. apply Hb.
    + intros p Hin. destruct (Hact p) as [Hp Hex]; [apply elem_of_cons; by right|].
      split; [done|]. unfold st1; cbn [heap].
      rewrite lookup_insert_ne; [done|]. intros ->. done.
    + intros c. unfold st1; cbn [calls].
      intros [?|Hx%list_elem_of_singleton]%elem_of_app; [auto|by subst c].
    + rewrite H1, H2. unfold st1; cbn [calls]. rewrite fmap_app, <- app_assoc.
      done.
Qed.

End RunFacts.

(** X18. As long as nothing calls [stop()] while it runs (thread bodies
    here do not reach the scheduler), [run()] returns only when no thread
    is registered.  On a scheduler without threads it returns at once;
    whenever it returns, [thread_count] is 0 and the running flag is still
    set; and a [stop()] before [run()] changes nothing, since [run()] sets
    the flag itself. *)
Theorem run_returns_only_when_empty :
  forall (U : Type) (time_us_32 : nat -> Z) (fuel : nat) (m : Machine U),
    sched_ok (sched m) ->
    (thread_count (sched m) = 0 ->
     run time_us_32 (S fuel) m
     = Some (set_sched (set_running true (sched m)) m, []))
    /\ (forall m' log,
          run time_us_32 fuel m = Some (m', log) ->
          thread_count (sched m') = 0 /\ running (sched m') = true)
    /\ run time_us_32 fuel (set_sched (Scheduler.stop (sched m)) m)
       = run time_us_32 fuel m.
Proof.
  intros U time_us_32 fuel m Hok. split; [|split].
  - intros H0. unfold run. cbn [run_loop set_sched sched set_running running
                                  thread_count andb].
    by rewrite H0.
  - intros m' log H. unfold run in H.
    by apply run_loop_exit in H.
  - reflexivity.
Qed.

Lemma run_returns_only_when_empty_witness :
  run clock 1 empty_machine
  = Some (set_sched (set_running true (sched empty_machine)) empty_machine, []).
Proof.
  apply (proj1 (run_returns_only_when_empty unit clock 0 empty_machine
                  ltac:(split; [reflexivity|cbn; unfold MAX_THREADS; lia]))).
  reflexivity.
Defined.

(** X19. As long as nothing calls [stop()] or re-activates the thread
    while it runs, [run()] does not return while a thread whose active flag
    is cleared is registered: such a thread is skipped and never removed,
    so [thread_count] stays above 0, whatever the number of passes. *)
Theorem run_spins_on_inactive_thread :
  forall (U : Type) (time_us_32 : nat -> Z) (m : Machine U) (p : N),
    sched_ok (sched m) ->
    p ∈ live (sched m) -> inactive_at (objs m) p ->
    forall fuel : nat, run time_us_32 fuel m = None.
Proof.
  intros U time_us_32 m p Hok Hin Hp fuel. unfold run.
  by apply (run_loop_spins time_us_32 fuel _ _ p).
Qed.

Lemma run_spins_on_inactive_thread_witness :
  let m := stopThread 1%N (addThreads the_queue [1%N] empty_machine).2 in
  run clock 5 m = None.
Proof.
  intros m.
  refine (run_spins_on_inactive_thread unit clock m 1%N _ _ _ 5%nat).
  - split; [reflexivity|].
    assert (thread_count (sched m) = 1) as -> by (vm_compute; reflexivity).
    unfold MAX_THREADS. lia.
  - assert (live (sched m) = [1%N]) as -> by (vm_compute; reflexivity).
    by apply list_elem_of_singleton.
  - exists (Thread.stop (setEventQueue the_queue waiting_thread)).
    split; [vm_compute; reflexivity|reflexivity].
Defined.

(** X20. When the registered pointers are distinct and point to active
    threads whose bodies return [PT_ENDED] or [PT_EXITED], [run()] makes one
    pass and returns: every thread is executed once, in registration order,
    the list is empty afterwards and every one of the threads is
    inactive. *)
Theorem run_retires_exiting_threads :
  forall (U : Type) (time_us_32 : nat -> Z) (fuel : nat) (m : Machine U),
    sched_ok (sched m) -> NoDup (live (sched m)) ->
    all_active m -> bodies_terminal true (objs m) ->
    exists m' log,
      run time_us_32 (S (S fuel)) m = Some (m', log)
      /\ log.*1 = live (sched m)
      /\ live (sched m') = []
      /\ forall p, p ∈ live (sched m) -> inactive_at (objs m') p.
Proof.
  intros U time_us_32 fuel m Hok Hnd Hact Hb. unfold run.
  set (m0 := set_sched (set_running true (sched m)) m).
  assert (Hok0 : sched_ok (sched m0)) by exact Hok.
  cbn [run_loop]. change (running (sched m0)) with true. cbn [andb].
  change (thread_count (sched m0)) with (thread_count (sched m)).
  destruct (Z.ltb_spec 0 (thread_count (sched m))) as [Hpos|Hz].
  - destruct (runOnce_spec time_us_32 m0 Hok0)
      as (m1 & Hrun & Hok1 & Hlive & Hobjs & _ & _ & _ & Hr1).
    change (live (sched m0)) with (live (sched m)) in *.
    destruct (pass_all_exit time_us_32 (live (sched m)) (pass_init m0))
      as (H1 & H2 & H3); try done.
    { intros c Hc. cbn in Hc. by apply elem_of_nil in Hc. }
    cbn [pass_init calls fmap list_fmap app] in H2.
    rewrite Hrun. rewrite H1 in Hlive.
    assert (Hc1 : thread_count (sched m1) = 0).
    { pose proof (live_length _ Hok1) as L. rewrite Hlive in L. cbn in L.
      destruct Hok1 as [_ ?]. lia. }
    rewrite Hr1. change (running (sched m0)) with true. rewrite Hc1. cbn.
    eexists _, _. split; [reflexivity|]. split; [done|]. split; [done|].
    intros p Hp. rewrite Hobjs.
    assert (Hin : p ∈ (calls (pass time_us_32 (live (sched m)) (pass_init m0))).*1)
      by (by rewrite H2).
    apply list_elem_of_fmap in Hin as ([p' r] & -> & Hc).
    apply (pass_retired_inactive time_us_32 _ (pass_init m0)) with (r := r);
      [|done|by apply (H3 (p', r))].
    intros p1 r1 Hc'. cbn in Hc'. by apply elem_of_nil in Hc'.
  - assert (Hl : live (sched m) = []).
    { pose proof (live_length _ Hok) as L. destruct Hok as [_ ?].
      destruct (live (sched m)); [done|cbn in L; lia]. }
    exists m0, []. change (live (sched m0)) with (live (sched m)).
    rewrite Hl. split; [done|]. split; [done|]. split; [done|].
    intros p Hp. by apply elem_of_nil in Hp.
Qed.

Lemma exiting_bodies : bodies_terminal true exiting_threads.
Proof.
  assert (He : forall s c, terminal (Thread.run exiting_thread s c).1.1 = true).
  { intros s c. cbn. unfold protothread. by destruct (lc c =? 0). }
  intros p t Hp. unfold exiting_threads in Hp.
  apply lookup_insert_Some in Hp as [[_ <-]|[_ Hp]]; [exact He|].
  apply lookup_singleton_Some in Hp as [_ <-]. exact He.
Qed.

Lemma run_retires_exiting_threads_witness :
  let m := (addThreads the_queue [1%N; 2%N]
              (machine_new exiting_threads (replicate 16 0%N))).2 in
  exists m' log,
    run clock 2 m = Some (m', log)
    /\ log.*1 = live (sched m)
    /\ live (sched m') = []
    /\ forall p, p ∈ live (sched m) -> inactive_at (objs m') p.
Proof.
  intros m.
  assert (E : live (sched m) = [1%N; 2%N]) by (vm_compute; reflexivity).
  apply (run_retires_exiting_threads unit clock 0 m).
  - split; [reflexivity|].
    assert (thread_count (sched m) = 2) as -> by (vm_compute; reflexivity).
    unfold MAX_THREADS. lia.
  - rewrite E. repeat (apply NoDup_cons; split; [not_in_list; discriminate|]).
    apply NoDup_nil_2.
  - intros p Hp. rewrite E in Hp.
    apply elem_of_cons in Hp as [->|Hp];
      [|apply list_elem_of_singleton in Hp as ->].
    + split; [discriminate|]. eexists. split; [vm_compute; reflexivity|reflexivity].
    + split; [discriminate|]. eexists. split; [vm_compute; reflexivity|reflexivity].
  - apply addThreads_bodies. cbn [machine_new objs]. exact exiting_bodies.
Defined.

(** ** Timing and clamping *)

(** X21. [delayElapsed] is right across the wrap-around of the 32-bit
    millisecond timer: when [elapsed] milliseconds (fewer than 2^32) have
    passed since [last_time], it fires exactly when [elapsed >= delay_ms],
    also when the timer has wrapped in between; when it fires it moves
    [last_time] to the current time, so that with a delay above 0 a second
    call at the same instant does not fire. *)
Theorem delayElapsed_wrap_safe :
  forall last_time elapsed delay_ms : Z,
    0 <= last_time < 2 ^ 32 -> 0 <= elapsed < 2 ^ 32 ->
    0 <= delay_ms < 2 ^ 32 ->
    let current_time := wrap32 (last_time + elapsed) in
    EurorackUtils.delayElapsed current_time last_time delay_ms
    = (if delay_ms <=? elapsed then (true, current_time) else (false, last_time))
    /\ (0 < delay_ms ->
        EurorackUtils.delayElapsed current_time current_time delay_ms
        = (false, current_time)).
Proof.
  intros last_time elapsed delay_ms Hl He Hd current_time.
  unfold EurorackUtils.delayElapsed, current_time. split.
  - replace (wrap32 (wrap32 (last_time + elapsed) - last_time)) with elapsed
      by zmod.
    done.
  - intros Hpos. rewrite Z.sub_diag. change (wrap32 0) with 0.
    destruct (Z.leb_spec delay_ms 0); [lia|done].
Qed.

Lemma delayElapsed_wrap_safe_witness :
  EurorackUtils.delayElapsed (wrap32 (4294967290 + 10)) 4294967290 10
  = (true, 4)
  /\ (0 < 10 ->
      EurorackUtils.delayElapsed (wrap32 (4294967290 + 10))
        (wrap32 (4294967290 + 10)) 10
      = (false, 4)).
Proof.
  apply (delayElapsed_wrap_safe 4294967290 10 10).
  - change (2 ^ 32) with 4294967296. lia.
  - change (2 ^ 32) with 4294967296. lia.
  - change (2 ^ 32) with 4294967296. lia.
Defined.

(** X22. [clamp] on integers: with [min_val <= max_val] the result lies in
    the range, a value in the range is returned as it is, and clamping
    twice is clamping once. *)
Theorem clamp_in_range :
  forall value min_val max_val : Z,
    min_val <= max_val ->
    let c := EurorackUtils.clamp value min_val max_val in
    min_val <= c <= max_val
    /\ (min_val <= value <= max_val -> c = value)
    /\ EurorackUtils.clamp c min_val max_val = c.
Proof.
  intros value min_val max_val H c. unfold c, EurorackUtils.clamp.
  destruct (Z.ltb_spec value min_val), (Z.ltb_spec max_val value);
    repeat match goal with
           | |- context [?a <? ?b] => destruct (Z.ltb_spec a b)
           end; lia.
Qed.

Lemma clamp_in_range_witness :
  let c := EurorackUtils.clamp 20 1 16 in
  1 <= c <= 16 /\ (1 <= 20 <= 16 -> c = 20) /\ EurorackUtils.clamp c 1 16 = c.
Proof. apply (clamp_in_range 20 1 16). lia. Defined.

(** ** Waiting for events *)

Import EventWait.

Lemma waiter_eta (s : Waiter) :
  s = {| event_queue := event_queue s; event_var := event_var s;
         queue := queue s |}.
Proof. by destruct s. Qed.

Lemma wait_event_cond_null s :
  event_queue s = 0%N -> wait_event_cond s = (false, s).
Proof. intros H. unfold wait_event_cond. by rewrite H. Qed.

Lemma wait_event_cond_empty s :
  wf (queue s) -> contents (queue s) = [] -> wait_event_cond s = (false, s).
Proof.
  intros Hwf Hc. unfold wait_event_cond.
  destruct (event_queue s =? 0)%N; [done|].
  apply contents_nil_iff in Hc; [|done]. rewrite pop_empty by done.
  by rewrite <- waiter_eta.
Qed.

Lemma wait_event_cond_some s e rest :
  wf (queue s) -> event_queue s <> 0%N -> contents (queue s) = e :: rest ->
  exists q',
    wf q' /\ contents q' = rest
    /\ wait_event_cond s
       = (true, {| event_queue := event_queue s; event_var := e; queue := q' |}).
Proof.
  intros Hwf Hp Hc. unfold wait_event_cond.
  destruct (N.eqb_spec (event_queue s) 0); [done|].
  assert (Hpos : 0 < count (queue s)).
  { pose proof Hwf as (_ & _ & Hcount & _).
    destruct (Z.eq_dec (count (queue s)) 0) as [H0|?]; [|lia].
    apply contents_nil_iff in H0; [|done]. congruence. }
  destruct (pop_spec (event_var s) (queue s) Hwf Hpos)
    as (e' & q' & -> & Hwf' & Hc' & _).
  rewrite Hc in Hc'. inversion Hc'; subst. by exists q'.
Qed.

(** The rounds of the loop of [PT_WAIT_EVENT_TYPE] when an event of the
    type is unread: the events before it are popped and dropped. *)
Lemma wait_event_type_loop_found ty (skipped : list PTEvent) :
  forall (n : nat) s e rest,
    wf (queue s) -> event_queue s <> 0%N ->
    Forall (fun x => type x <> ty) skipped ->
    contents (queue s) = skipped ++ e :: rest -> type e = ty ->
    (length skipped <= n)%nat ->
    exists q',
      wf q' /\ contents q' = rest
      /\ wait_event_type_loop n ty s
         = (true, {| event_queue := event_queue s; event_var := e; queue := q' |}).
Proof.
  induction skipped as [|x sk IH]; intros n s e rest Hwf Hp Hsk Hc Hty Hn.
  - destruct (wait_event_cond_some s e rest Hwf Hp Hc) as (q' & Hwf' & Hc' & Hcond).
    exists q'. split; [done|]. split; [done|].
    destruct n; cbn [wait_event_type_loop]; rewrite Hcond; cbn [event_var];
      by rewrite decide_True.
  - apply Forall_cons in Hsk as [Hx Hsk]. cbn [app] in Hc.
    destruct (wait_event_cond_some s x _ Hwf Hp Hc) as (q1 & Hwf1 & Hc1 & Hcond).
    destruct n as [|n]; [cbn in Hn; lia|].
    cbn [wait_event_type_loop]. rewrite Hcond. cbn [event_var].
    rewrite decide_False by done.
    destruct (IH n {| event_queue := event_queue s; event_var := x; queue := q1 |}
                e rest) as (q' & ? & ? & Hloop); try done.
    { cbn in Hn. lia. }
    exists q'. by rewrite Hloop.
Qed.

(** The rounds of the loop when no unread event has the type: all of them
    are popped and dropped. *)
Lemma wait_event_type_loop_none ty (skipped : list PTEvent) :
  forall (n : nat) s,
    wf (queue s) -> event_queue s <> 0%N ->
    Forall (fun x => type x <> ty) skipped ->
    contents (queue s) = skipped ->
    (length skipped <= n)%nat ->
    exists q',
      wf q' /\ contents q' = []
      /\ wait_event_type_loop n ty s
         = (false, {| event_queue := event_queue s;
                      event_var := default (event_var s) (last skipped);
                      queue := q' |}).
Proof.
  induction skipped as [|x sk IH]; intros n s Hwf Hp Hsk Hc Hn.
  - exists (queue s). split; [done|]. split; [done|].
    destruct n; cbn [wait_event_type_loop];
      rewrite (wait_event_cond_empty s Hwf Hc); cbn; apply f_equal, waiter_eta.
  - apply Forall_cons in Hsk as [Hx Hsk].
    destruct (wait_event_cond_some s x _ Hwf Hp Hc) as (q1 & Hwf1 & Hc1 & Hcond).
    destruct n as [|n]; [cbn in Hn; lia|].
    cbn [wait_event_type_loop]. rewrite Hcond. cbn [event_var].
    rewrite decide_False by done.
    destruct (IH n {| event_queue := event_queue s; event_var := x; queue := q1 |})
      as (q' & ? & ? & Hloop); try done.
    { cbn in Hn. lia. }
    exists q'. rewrite Hloop. cbn [event_queue event_var].
    split; [done|]. split; [done|]. f_equal. f_equal.
    destruct sk as [|y sk']; [reflexivity|].
    change (last (x :: y :: sk')) with (last (y :: sk')).
    destruct (last (y :: sk')) eqn:E; [reflexivity|]. by apply last_None in E.
Qed.

(** X10. [PT_WAIT_EVENT]: a thread whose queue pointer is null, or whose
    queue has no unread event, gets [PT_WAITING] and nothing changes; with
    the pointer set and events unread, the oldest one is taken off the
    queue into the event variable and the statements after the wait run in
    the same invocation. *)
Theorem wait_event_takes_oldest :
  forall (line : Z) (k : list (stmt Waiter)) (s : Waiter) (p : pt),
    wf (queue s) ->
    (event_queue s = 0%N \/ contents (queue s) = [] ->
     exec (PT_WAIT_EVENT line :: k) s p = (PT_WAITING, s, {| lc := line |}))
    /\ (forall e rest,
          event_queue s <> 0%N -> contents (queue s) = e :: rest ->
          exists q',
            wf q' /\ contents q' = rest
            /\ exec (PT_WAIT_EVENT line :: k) s p
               = exec k {| event_queue := event_queue s; event_var := e;
                           queue := q' |} {| lc := line |}).
Proof.
  intros line k s p Hwf. split.
  - intros [H|H]; cbn [PT_WAIT_EVENT exec].
    + by rewrite wait_event_cond_null.
    + by rewrite wait_event_cond_empty.
  - intros e rest Hp Hc.
    destruct (wait_event_cond_some s e rest Hwf Hp Hc) as (q' & ? & ? & Hcond).
    exists q'. cbn [PT_WAIT_EVENT exec]. by rewrite Hcond.
Qed.

Lemma wait_event_takes_oldest_witness :
  let e := PTEvent_make 3 BUTTON_PRESS 1 in
  let s := {| event_queue := 100%N; event_var := PTEvent_default;
              queue := (push e PTEventQueue_new).2 |} in
  exists q',
    wf q' /\ contents q' = []
    /\ exec [PT_WAIT_EVENT 20] s {| lc := 0 |}
       = exec [] {| event_queue := 100%N; event_var := e; queue := q' |}
           {| lc := 20 |}.
Proof.
  intros e s.
  assert (Hwf : wf (queue s)).
  { unfold wf, MAX_EVENTS.
    change (tail (queue s)) with 0. change (count (queue s)) with 1.
    change (head (queue s)) with 1.
    split; [reflexivity|]. split; [lia|]. split; [lia|reflexivity]. }
  apply (proj2 (wait_event_takes_oldest 20 [] s {| lc := 0 |} Hwf) e []).
  - discriminate.
  - reflexivity.
Defined.

(** X11. [PT_WAIT_EVENT_TYPE] throws away the events it does not wait for:
    with the queue pointer set, every unread event in front of the first
    one of the type is popped and lost, that one lands in the event
    variable and the events behind it stay unread; when no unread event has
    the type the whole queue is emptied, the event variable holds the last
    event dropped and [PT_WAITING] is returned. *)
Theorem wait_event_type_discards_others :
  forall (line : Z) (ty : PTEventType) (k : list (stmt Waiter))
         (s : Waiter) (p : pt) (skipped : list PTEvent),
    wf (queue s) -> event_queue s <> 0%N ->
    Forall (fun x => type x <> ty) skipped ->
    (forall e rest,
        contents (queue s) = skipped ++ e :: rest -> type e = ty ->
        exists q',
          wf q' /\ contents q' = rest
          /\ exec (PT_WAIT_EVENT_TYPE line ty :: k) s p
             = exec k {| event_queue := event_queue s; event_var := e;
                         queue := q' |} {| lc := line |})
    /\ (contents (queue s) = skipped ->
        exists q',
          wf q' /\ contents q' = []
          /\ exec (PT_WAIT_EVENT_TYPE line ty :: k) s p
             = (PT_WAITING,
                {| event_queue := event_queue s;
                   event_var := default (event_var s) (last skipped);
                   queue := q' |},
                {| lc := line |})).
Proof.
  intros line ty k s p skipped Hwf Hp Hsk.
  assert (Hcount : 0 <= count (queue s)) by (destruct Hwf as (_ & _ & ? & _); lia).
  pose proof (contents_length (queue s) Hcount) as Hlen.
  split.
  - intros e rest Hc Hty.
    destruct (wait_event_type_loop_found ty skipped (Z.to_nat (count (queue s)))
                s e rest Hwf Hp Hsk Hc Hty) as (q' & ? & ? & Hloop).
    { rewrite Hc, length_app in Hlen. cbn [length] in Hlen. lia. }
    exists q'. cbn [PT_WAIT_EVENT_TYPE exec]. by rewrite Hloop.
  - intros Hc.
    destruct (wait_event_type_loop_none ty skipped (Z.to_nat (count (queue s)))
                s Hwf Hp Hsk Hc) as (q' & ? & ? & Hloop).
    { rewrite Hc in Hlen. lia. }
    exists q'. cbn [PT_WAIT_EVENT_TYPE exec]. by rewrite Hloop.
Qed.

Lemma wait_event_type_discards_others_witness :
  let a := PTEvent_make 1 BUTTON_PRESS 1 in
  let b := PTEvent_make 2 GATE_RISING 2 in
  let c := PTEvent_make 3 ENCODER_TURN 3 in
  let s := {| event_queue := 100%N; event_var := PTEvent_default;
              queue := (push_all [a; b; c] PTEventQueue_new).2 |} in
  exists q',
    wf q' /\ contents q' = [c]
    /\ exec [PT_WAIT_EVENT_TYPE 30 GATE_RISING] s {| lc := 0 |}
       = exec [] {| event_queue := 100%N; event_var := b; queue := q' |}
           {| lc := 30 |}.
Proof.
  intros a b c s.
  assert (Hwf : wf (queue s)).
  { unfold wf, MAX_EVENTS.
    change (tail (queue s)) with 0. change (count (queue s)) with 3.
    change (head (queue s)) with 3.
    split; [reflexivity|]. split; [lia|]. split; [lia|reflexivity]. }
  apply (proj1 (wait_event_type_discards_others 30 GATE_RISING [] s
                  {| lc := 0 |} [a] Hwf ltac:(discriminate)
                  ltac:(apply Forall_cons; split;
                          [discriminate|apply Forall_nil_2])) b [c]).
  - reflexivity.
  - reflexivity.
Defined.

(** ** Posting an event *)



